(** * CharacterList: filter/sort pipeline, pagination merge and overlay handlers

    Shallow embedding of [src/component/CharacterList/index.tsx].

    - JavaScript strings are sequences of code units; the development covers
      the code units below 256 (one [ascii] per code unit).
    - JavaScript arrays are mutable objects with an identity: they live in a
      store ([Heap]) and the component's state holds references to them, so
      that [Array.prototype.sort], which sorts in place, is visible through
      every alias of the array.
    - The asynchronous [loadMoreCharacters] is split at its [await]: the part
      before it, which reads the constants of the render that made the handler,
      and the continuation after it, one for each call. *)

From Stdlib Require Import ZArith Ascii String Decimal DecimalString DecimalPos DecimalZ.
From stdpp Require Import gmap strings list fin_maps sorting.

Open Scope string_scope.
Open Scope Z_scope.
Open Scope list_scope.

(** ** Strings *)

Module JsString.

(** [String.prototype.toLowerCase] on one code unit below 256: the Latin
    capital letters [A-Z] and the Latin-1 capitals U+00C0..U+00DE (U+00D7,
    the multiplication sign, apart) move up by 32. *)
Definition lowerUnit (c : ascii) : ascii :=
  let n := N_of_ascii c in
  if ((65 <=? n) && (n <=? 90))%N
     || ((192 <=? n) && (n <=? 222) && negb (n =? 215))%N
  then ascii_of_N (n + 32) else c.

(** [String.prototype.toLowerCase] on a string of code units below 256: in
    that range every letter has a lowercase form of one code unit that does not
    depend on its neighbours, so the string is mapped unit by unit. *)
Fixpoint toLowerCase (s : string) : string :=
  match s with
  | EmptyString => EmptyString
  | String c s' => String (lowerUnit c) (toLowerCase s')
  end.

(** [s.startsWith(t)] *)
Fixpoint startsWith (s t : string) {struct t} : bool :=
  match t, s with
  | EmptyString, _ => true
  | String _ _, EmptyString => false
  | String y t', String x s' => if Ascii.eqb x y then startsWith s' t' else false
  end.

(** [s.includes(t)]: [t] occurs in [s] at some position. *)
Fixpoint includes (s t : string) : bool :=
  startsWith s t ||
  match s with
  | EmptyString => false
  | String _ s' => includes s' t
  end.

(** [a < b] on strings: code unit by code unit, a proper prefix is smaller. *)
Fixpoint lt (a b : string) : bool :=
  match a, b with
  | _, EmptyString => false
  | EmptyString, String _ _ => true
  | String x a', String y b' =>
      if (N_of_ascii x <? N_of_ascii y)%N then true
      else if (N_of_ascii y <? N_of_ascii x)%N then false
      else lt a' b'
  end.

(** A string used as a condition is true when it is not empty. *)
Definition truthy (s : string) : bool :=
  match s with EmptyString => false | String _ _ => true end.

End JsString.

(** ** Records *)

(** Modelled from the spec: the interface [Character] is declared in
    [@/interfaces/Character], outside the source tree; the spec's Record has
    an integer identifier, a display name, a status and an image reference. *)
Record Character : Type := mkCharacter {
  id : Z;
  name : string;
  status : string;
  image : string
}.

#[global] Instance Character_eq_dec : EqDecision Character.
Proof. solve_decision. Defined.

Inductive SortOrder : Type := asc | desc.

#[global] Instance SortOrder_eq_dec : EqDecision SortOrder.
Proof. solve_decision. Defined.

(** ** Arrays *)

(** [Array.prototype.sort(compareFn)] is stable, and for a comparator that is
    a consistent ordering the outcome is determined: it is what this stable
    insertion computes. [x] goes before the first [y] that it does not
    compare greater than. *)
Fixpoint sortInsert {A} (compareFn : A → A → Z) (x : A) (l : list A) : list A :=
  match l with
  | [] => [x]
  | y :: l' => if compareFn x y <=? 0 then x :: l else y :: sortInsert compareFn x l'
  end.

Definition sorted_copy {A} (compareFn : A → A → Z) (l : list A) : list A :=
  foldr (sortInsert compareFn) [] l.

(** An array is known by its reference; the store maps references to the
    elements the array holds now. *)
Definition loc := nat.
Abbreviation Heap := (gmap nat (list Character)).

(** Computations on the store that may fail on a reference the store does not
    hold. *)
Definition M (A : Type) : Type := Heap → option (A * Heap).

Definition ret {A} (a : A) : M A := λ h, Some (a, h).
Definition bind {A B} (m : M A) (f : A → M B) : M B :=
  λ h, match m h with
       | Some (a, h') => f a h'
       | None => None
       end.

Notation "x <~ m ;; f" := (bind m (λ x, f))
  (at level 100, m at next level, right associativity).

Definition readArray (a : loc) : M (list Character) :=
  λ h, match h !! a with Some v => Some (v, h) | None => None end.

(** A new array object. *)
Definition newArray (v : list Character) : M loc :=
  λ h, let r := fresh (dom h) in Some (r, <[r := v]> h).

(** [a.filter(p)]: a new array, [a] untouched. *)
Definition Array_filter (a : loc) (p : Character → bool) : M loc :=
  v <~ readArray a ;; newArray (List.filter p v).

(** [a.map(f)]: a new array, [a] untouched. *)
Definition Array_map (a : loc) (f : Character → Character) : M loc :=
  v <~ readArray a ;; newArray (List.map f v).

(** [a.sort(compareFn)]: sorts [a] itself and returns [a]. *)
Definition Array_sort (a : loc) (compareFn : Character → Character → Z) : M loc :=
  v <~ readArray a ;;
  λ h, Some (a, <[a := sorted_copy compareFn v]> h).

(** ** The filter/sort pipeline (lines 71-95) *)

(** [sortOrder === "asc"] *)
Definition isAsc (sortOrder : SortOrder) : bool :=
  match sortOrder with asc => true | desc => false end.

(** The comparator handed to [sort]. *)
Definition compareFn (sortOrder : SortOrder) (a b : Character) : Z :=
  if JsString.lt (name a) (name b) then (if isAsc sortOrder then -1 else 1)
  else if JsString.lt (name b) (name a) then (if isAsc sortOrder then 1 else -1)
  else 0.

Definition statusIs (filter : string) (character : Character) : bool :=
  String.eqb (status character) filter.

Definition nameMatches (searchTerm : string) (character : Character) : bool :=
  JsString.includes (JsString.toLowerCase (name character))
                    (JsString.toLowerCase searchTerm).

Definition getFilteredAndSortedCharacters
    (characters : loc) (filter searchTerm : string) (sortOrder : SortOrder) : M loc :=
  filtered <~ (if negb (String.eqb filter "All")
               then Array_filter characters (statusIs filter)
               else ret characters) ;;
  filtered <~ (if JsString.truthy searchTerm
               then Array_filter filtered (nameMatches searchTerm)
               else ret filtered) ;;
  Array_sort filtered (compareFn sortOrder).

(** ** The component's state *)

(** What a call of [loadMoreCharacters] holds while it waits for the network:
    the values of [page] and [allCharacters] of the render it was made in. *)
Record Request : Type := mkRequest {
  req_page : Z;
  req_allCharacters : loc
}.

(** What the [Excluir] button of the dialog of [handleDelete] holds: the
    identifier and the [characters] of the render the dialog was opened in. *)
Record Prompt : Type := mkPrompt {
  prompt_id : Z;
  prompt_characters : loc
}.

(** The props, the state of the hooks and the effects seen from outside.
    Setters act on this state. A handler reads the constants of the render that
    made it: [loadMoreCharacters], whose guard and request depend on them, takes
    them as a [Closure]; the other handlers are given as made by the render of
    the state they run on. [inFlight] is a ghost field that no handler of the
    source reads: the request of the call of [loadMoreCharacters] made last,
    until a continuation has run. *)
Record State : Type := mkState {
  heap : Heap;
  searchTerm : string;
  filter : string;
  sortOrder : SortOrder;
  characters : loc;
  allCharacters : loc;
  filteredCharacters : loc;
  selectedCharacter : option Character;
  isModalVisible : bool;
  isEditModalVisible : bool;
  page : Z;
  hasMore : bool;
  loadingMore : bool;
  inFlight : option Request;
  alert : option Prompt;
  console : list (string * string);
  network : list Z
}.

Definition setHeap (x : Heap) (st : State) : State :=
  {| heap := x;
     searchTerm := searchTerm st;
     filter := filter st;
     sortOrder := sortOrder st;
     characters := characters st;
     allCharacters := allCharacters st;
     filteredCharacters := filteredCharacters st;
     selectedCharacter := selectedCharacter st;
     isModalVisible := isModalVisible st;
     isEditModalVisible := isEditModalVisible st;
     page := page st;
     hasMore := hasMore st;
     loadingMore := loadingMore st;
     inFlight := inFlight st;
     alert := alert st;
     console := console st;
     network := network st |}.

Definition setCharacters (x : loc) (st : State) : State :=
  {| heap := heap st;
     searchTerm := searchTerm st;
     filter := filter st;
     sortOrder := sortOrder st;
     characters := x;
     allCharacters := allCharacters st;
     filteredCharacters := filteredCharacters st;
     selectedCharacter := selectedCharacter st;
     isModalVisible := isModalVisible st;
     isEditModalVisible := isEditModalVisible st;
     page := page st;
     hasMore := hasMore st;
     loadingMore := loadingMore st;
     inFlight := inFlight st;
     alert := alert st;
     console := console st;
     network := network st |}.

Definition updateCharacters (x : loc) (st : State) : State :=
  {| heap := heap st;
     searchTerm := searchTerm st;
     filter := filter st;
     sortOrder := sortOrder st;
     characters := characters st;
     allCharacters := x;
     filteredCharacters := filteredCharacters st;
     selectedCharacter := selectedCharacter st;
     isModalVisible := isModalVisible st;
     isEditModalVisible := isEditModalVisible st;
     page := page st;
     hasMore := hasMore st;
     loadingMore := loadingMore st;
     inFlight := inFlight st;
     alert := alert st;
     console := console st;
     network := network st |}.

Definition setFilteredCharacters (x : loc) (st : State) : State :=
  {| heap := heap st;
     searchTerm := searchTerm st;
     filter := filter st;
     sortOrder := sortOrder st;
     characters := characters st;
     allCharacters := allCharacters st;
     filteredCharacters := x;
     selectedCharacter := selectedCharacter st;
     isModalVisible := isModalVisible st;
     isEditModalVisible := isEditModalVisible st;
     page := page st;
     hasMore := hasMore st;
     loadingMore := loadingMore st;
     inFlight := inFlight st;
     alert := alert st;
     console := console st;
     network := network st |}.

Definition setSelectedCharacter (x : option Character) (st : State) : State :=
  {| heap := heap st;
     searchTerm := searchTerm st;
     filter := filter st;
     sortOrder := sortOrder st;
     characters := characters st;
     allCharacters := allCharacters st;
     filteredCharacters := filteredCharacters st;
     selectedCharacter := x;
     isModalVisible := isModalVisible st;
     isEditModalVisible := isEditModalVisible st;
     page := page st;
     hasMore := hasMore st;
     loadingMore := loadingMore st;
     inFlight := inFlight st;
     alert := alert st;
     console := console st;
     network := network st |}.

Definition setIsModalVisible (x : bool) (st : State) : State :=
  {| heap := heap st;
     searchTerm := searchTerm st;
     filter := filter st;
     sortOrder := sortOrder st;
     characters := characters st;
     allCharacters := allCharacters st;
     filteredCharacters := filteredCharacters st;
     selectedCharacter := selectedCharacter st;
     isModalVisible := x;
     isEditModalVisible := isEditModalVisible st;
     page := page st;
     hasMore := hasMore st;
     loadingMore := loadingMore st;
     inFlight := inFlight st;
     alert := alert st;
     console := console st;
     network := network st |}.

Definition setIsEditModalVisible (x : bool) (st : State) : State :=
  {| heap := heap st;
     searchTerm := searchTerm st;
     filter := filter st;
     sortOrder := sortOrder st;
     characters := characters st;
     allCharacters := allCharacters st;
     filteredCharacters := filteredCharacters st;
     selectedCharacter := selectedCharacter st;
     isModalVisible := isModalVisible st;
     isEditModalVisible := x;
     page := page st;
     hasMore := hasMore st;
     loadingMore := loadingMore st;
     inFlight := inFlight st;
     alert := alert st;
     console := console st;
     network := network st |}.

Definition setHasMore (x : bool) (st : State) : State :=
  {| heap := heap st;
     searchTerm := searchTerm st;
     filter := filter st;
     sortOrder := sortOrder st;
     characters := characters st;
     allCharacters := allCharacters st;
     filteredCharacters := filteredCharacters st;
     selectedCharacter := selectedCharacter st;
     isModalVisible := isModalVisible st;
     isEditModalVisible := isEditModalVisible st;
     page := page st;
     hasMore := x;
     loadingMore := loadingMore st;
     inFlight := inFlight st;
     alert := alert st;
     console := console st;
     network := network st |}.

Definition setLoadingMore (x : bool) (st : State) : State :=
  {| heap := heap st;
     searchTerm := searchTerm st;
     filter := filter st;
     sortOrder := sortOrder st;
     characters := characters st;
     allCharacters := allCharacters st;
     filteredCharacters := filteredCharacters st;
     selectedCharacter := selectedCharacter st;
     isModalVisible := isModalVisible st;
     isEditModalVisible := isEditModalVisible st;
     page := page st;
     hasMore := hasMore st;
     loadingMore := x;
     inFlight := inFlight st;
     alert := alert st;
     console := console st;
     network := network st |}.

Definition setInFlight (x : option Request) (st : State) : State :=
  {| heap := heap st;
     searchTerm := searchTerm st;
     filter := filter st;
     sortOrder := sortOrder st;
     characters := characters st;
     allCharacters := allCharacters st;
     filteredCharacters := filteredCharacters st;
     selectedCharacter := selectedCharacter st;
     isModalVisible := isModalVisible st;
     isEditModalVisible := isEditModalVisible st;
     page := page st;
     hasMore := hasMore st;
     loadingMore := loadingMore st;
     inFlight := x;
     alert := alert st;
     console := console st;
     network := network st |}.

Definition setAlert (x : option Prompt) (st : State) : State :=
  {| heap := heap st;
     searchTerm := searchTerm st;
     filter := filter st;
     sortOrder := sortOrder st;
     characters := characters st;
     allCharacters := allCharacters st;
     filteredCharacters := filteredCharacters st;
     selectedCharacter := selectedCharacter st;
     isModalVisible := isModalVisible st;
     isEditModalVisible := isEditModalVisible st;
     page := page st;
     hasMore := hasMore st;
     loadingMore := loadingMore st;
     inFlight := inFlight st;
     alert := x;
     console := console st;
     network := network st |}.

Definition setPage (f : Z → Z) (st : State) : State :=
  {| heap := heap st;
     searchTerm := searchTerm st;
     filter := filter st;
     sortOrder := sortOrder st;
     characters := characters st;
     allCharacters := allCharacters st;
     filteredCharacters := filteredCharacters st;
     selectedCharacter := selectedCharacter st;
     isModalVisible := isModalVisible st;
     isEditModalVisible := isEditModalVisible st;
     page := f (page st);
     hasMore := hasMore st;
     loadingMore := loadingMore st;
     inFlight := inFlight st;
     alert := alert st;
     console := console st;
     network := network st |}.

Definition console_error (message error : string) (st : State) : State :=
  {| heap := heap st;
     searchTerm := searchTerm st;
     filter := filter st;
     sortOrder := sortOrder st;
     characters := characters st;
     allCharacters := allCharacters st;
     filteredCharacters := filteredCharacters st;
     selectedCharacter := selectedCharacter st;
     isModalVisible := isModalVisible st;
     isEditModalVisible := isEditModalVisible st;
     page := page st;
     hasMore := hasMore st;
     loadingMore := loadingMore st;
     inFlight := inFlight st;
     alert := alert st;
     console := console st ++ [(message, error)];
     network := network st |}.

Definition fetch (n : Z) (st : State) : State :=
  {| heap := heap st;
     searchTerm := searchTerm st;
     filter := filter st;
     sortOrder := sortOrder st;
     characters := characters st;
     allCharacters := allCharacters st;
     filteredCharacters := filteredCharacters st;
     selectedCharacter := selectedCharacter st;
     isModalVisible := isModalVisible st;
     isEditModalVisible := isEditModalVisible st;
     page := page st;
     hasMore := hasMore st;
     loadingMore := loadingMore st;
     inFlight := inFlight st;
     alert := alert st;
     console := console st;
     network := network st ++ [n] |}.

(** Runs a computation on the store of the component. *)
Definition onHeap {A} (m : M A) (st : State) : option (A * State) :=
  match m (heap st) with
  | Some (a, h) => Some (a, setHeap h st)
  | None => None
  end.

(** ** Pagination (lines 45-68) *)

(** [new Map(entries)] keeps its keys in the order of their first insertion;
    setting a key that is present replaces the value where the key stands. *)
Fixpoint Map_set (k : Z) (v : Character) (m : list (Z * Character)) : list (Z * Character) :=
  match m with
  | [] => [(k, v)]
  | (k', v') :: m' => if decide (k' = k) then (k, v) :: m' else (k', v') :: Map_set k v m'
  end.

Definition Map_new (entries : list (Z * Character)) : list (Z * Character) :=
  foldl (λ m e, Map_set e.1 e.2 m) [] entries.

Definition Map_values (m : list (Z * Character)) : list Character := List.map snd m.

(** Lines 54-56: [Array.from(new Map(newCharacters.map(c => [c.id, c])).values())]
    for [newCharacters = [...allCharacters, ...results]]. *)
Definition uniqueCharacters (allCharacters results : list Character) : list Character :=
  let newCharacters := allCharacters ++ results in
  Map_values (Map_new (List.map (λ character, (id character, character)) newCharacters)).

(** What the two [await]s of the [try] block come back with: a rejection of
    [fetch] or of [response.json()], or the parsed body, whose [results] is an
    array or is missing. *)
Inductive Response : Type :=
  | Rejected (error : string)
  | Body (results : option (list Character)).

Definition logMessage : string := "Erro ao carregar mais personagens:".

(** The constants of one render that [loadMoreCharacters] closes over (lines
    34 and 41-43): they stay what they were when the state moves on. *)
Record Closure : Type := mkClosure {
  seen_loadingMore : bool;
  seen_hasMore : bool;
  seen_page : Z;
  seen_allCharacters : loc
}.

(** The closure of the render of [st]. *)
Definition closureOf (st : State) : Closure :=
  {| seen_loadingMore := loadingMore st;
     seen_hasMore := hasMore st;
     seen_page := page st;
     seen_allCharacters := allCharacters st |}.

(** Lines 46-50: the guard, and the call up to its first [await], for the
    handler that a render with the constants [seen] made, run on the state
    [st]. The guard and the URL read the constants; the setter acts on the
    state. *)
Definition loadMoreCharacters_of (seen : Closure) (st : State) : State :=
  if seen_loadingMore seen || negb (seen_hasMore seen) then st
  else
    let st := setLoadingMore true st in
    let st := fetch (seen_page seen) st in
    setInFlight (Some (mkRequest (seen_page seen) (seen_allCharacters seen))) st.

(** The handler of the latest render: the component has rendered the state
    [st] and the list calls the handler that this render made. *)
Definition loadMoreCharacters (st : State) : State :=
  loadMoreCharacters_of (closureOf st) st.

(** Lines 51-62, the [try] block after the [await]s. [None] stands for the
    exception that reading [length] of a missing [results] throws. The arrays
    built on the way that nothing refers to afterwards are not kept in the
    store. *)
Definition loadMoreCharacters_try (req : Request) (results : option (list Character))
    (st : State) : option (option State) :=
  match results with
  | None => Some None
  | Some results =>
      if 0 <? Z.of_nat (length results) then
        match onHeap (all <~ readArray (req_allCharacters req) ;;
                      newArray (uniqueCharacters all results)) st with
        | Some (unique, st) =>
            let st := updateCharacters unique st in
            let st := setFilteredCharacters unique st in
            Some (Some (setPage (λ prev, prev + 1) st))
        | None => None
        end
      else Some (Some (setHasMore false st))
  end.

(** Lines 51-67: the continuation of one call, the one that carries [req],
    with its [catch] and [finally]. Every call has its own continuation, and it
    runs on the state as it is when the response arrives. [None] is a reference
    the store does not hold. *)
Definition loadMoreCharacters_after (req : Request) (r : Response) (st : State)
    : option State :=
  let finally st := setLoadingMore false st in
  match r with
  | Rejected error => Some (finally (console_error logMessage error st))
  | Body results =>
      match loadMoreCharacters_try req results st with
      | Some (Some st') => Some (finally st')
      | Some None => Some (finally (console_error logMessage "TypeError" st))
      | None => None
      end
  end.

(** The response to the call made last, when it is the only one that waits:
    its continuation, after which no call waits. Without a call that waits
    there is no response to handle. *)
Definition loadMoreCharacters_resume (r : Response) (st : State) : option State :=
  match inFlight st with
  | None => Some st
  | Some req => option_map (setInFlight None) (loadMoreCharacters_after req r st)
  end.

(** ** The effect (lines 71-95) *)

Definition filterEffect (st : State) : option State :=
  match onHeap (getFilteredAndSortedCharacters
                  (characters st) (filter st) (searchTerm st) (sortOrder st)) st with
  | Some (view, st) => Some (setFilteredCharacters view st)
  | None => None
  end.

(** ** Overlays (lines 98-147) *)

Definition openModal (character : Character) (st : State) : State :=
  setIsModalVisible true (setSelectedCharacter (Some character) st).

Definition closeModal (st : State) : State :=
  setSelectedCharacter None (setIsModalVisible false st).

(** [Alert.alert] puts the dialog on screen and returns; [handleDelete] then
    hides the detail overlay, whatever the answer will be. *)
Definition handleDelete (id : Z) (st : State) : State :=
  setIsModalVisible false (setAlert (Some (mkPrompt id (characters st))) st).

(** The button [Cancelar] has no [onPress]: the dialog goes away. *)
Definition alertCancel (st : State) : State := setAlert None st.

(** The button [Excluir]: lines 120-125. *)
Definition alertConfirm (st : State) : option State :=
  match alert st with
  | None => Some st
  | Some p =>
      match onHeap (Array_filter (prompt_characters p)
                      (λ character, negb (id character =? prompt_id p))) st with
      | Some (updatedCharacters, st) => Some (setAlert None (setCharacters updatedCharacters st))
      | None => None
      end
  end.

Definition handleEdit (character : Character) (st : State) : State :=
  setIsModalVisible false (setIsEditModalVisible true (setSelectedCharacter (Some character) st)).

Definition saveEdit (updatedCharacter : Character) (st : State) : option State :=
  match onHeap (Array_map (characters st)
                  (λ char, if id char =? id updatedCharacter then updatedCharacter else char)) st with
  | Some (updatedCharacters, st) =>
      Some (setIsEditModalVisible false (setCharacters updatedCharacters st))
  | None => None
  end.

(** [onClose] of the edit overlay (line 195). *)
Definition closeEdit (st : State) : State := setIsEditModalVisible false st.

(** ** The component as a transition system *)

(** The events of a component that renders between any two of them: the list
    calls the handler of the latest render ([EndReached]), and a response
    answers the one call that waits ([Fetched]). *)
Inductive Event : Type :=
  | EndReached
  | Fetched (r : Response)
  | Effect
  | OpenModal (character : Character)
  | CloseModal
  | Delete (id : Z)
  | AlertCancel
  | AlertConfirm
  | Edit (character : Character)
  | SaveEdit (updatedCharacter : Character)
  | CloseEdit.

Definition step (e : Event) (st : State) : option State :=
  match e with
  | EndReached => Some (loadMoreCharacters st)
  | Fetched r => loadMoreCharacters_resume r st
  | Effect => filterEffect st
  | OpenModal c => Some (openModal c st)
  | CloseModal => Some (closeModal st)
  | Delete i => Some (handleDelete i st)
  | AlertCancel => Some (alertCancel st)
  | AlertConfirm => alertConfirm st
  | Edit c => Some (handleEdit c st)
  | SaveEdit u => saveEdit u st
  | CloseEdit => Some (closeEdit st)
  end.

Fixpoint run (es : list Event) (st : State) : option State :=
  match es with
  | [] => Some st
  | e :: es' =>
      match step e st with
      | Some st' => run es' st'
      | None => None
      end
  end.

(** The same component without that assumption: the list may call the handler
    of any render, and a response may reach the continuation of any call. *)
Inductive Trigger : Type :=
  | CallFrom (seen : Closure)
  | Answer (req : Request) (r : Response)
  | Other (e : Event).

Definition fire (t : Trigger) (st : State) : option State :=
  match t with
  | CallFrom seen => Some (loadMoreCharacters_of seen st)
  | Answer req r => option_map (setInFlight None) (loadMoreCharacters_after req r st)
  | Other e => step e st
  end.

Fixpoint fireAll (ts : list Trigger) (st : State) : option State :=
  match ts with
  | [] => Some st
  | t :: ts' =>
      match fire t st with
      | Some st' => fireAll ts' st'
      | None => None
      end
  end.

(** The triggers of a component that renders between any two of them: every
    call comes from the handler of the latest render, and every response
    answers the call made last, which still waits. *)
Fixpoint inTurn (ts : list Trigger) (st : State) : Prop :=
  match ts with
  | [] => True
  | t :: ts' =>
      match t with
      | CallFrom seen => seen = closureOf st
      | Answer req _ => inFlight st = Some req
      | Other _ => True
      end ∧
      match fire t st with
      | Some st' => inTurn ts' st'
      | None => True
      end
  end.

(** The first render: the arrays of the props and of the hook are in the
    store, the component's own state has its [useState] values. *)
Definition initialState (characters allCharacters : list Character)
    (searchTerm filter : string) (sortOrder : SortOrder) : State :=
  {| heap := {[ 0%nat := characters; 1%nat := allCharacters; 2%nat := [] ]};
     searchTerm := searchTerm;
     filter := filter;
     sortOrder := sortOrder;
     characters := 0%nat;
     allCharacters := 1%nat;
     filteredCharacters := 2%nat;
     selectedCharacter := None;
     isModalVisible := false;
     isEditModalVisible := false;
     page := 1;
     hasMore := true;
     loadingMore := false;
     inFlight := None;
     alert := None;
     console := [];
     network := [] |}.

(** Every reference the state holds is an array of the store. *)
Definition wf (st : State) : Prop :=
  is_Some (heap st !! characters st) ∧
  is_Some (heap st !! allCharacters st) ∧
  is_Some (heap st !! filteredCharacters st) ∧
  (∀ req, inFlight st = Some req → is_Some (heap st !! req_allCharacters req)) ∧
  (∀ p, alert st = Some p → is_Some (heap st !! prompt_characters p)).

(** ** What the spec says of the pipeline, in its own words *)

Module Spec.

(** [t] is a substring of [s]. *)
Definition contains (s t : string) : Prop :=
  ∃ pre post, s = pre +:+ t +:+ post.

(** Ordinary lexicographic comparison of strings. *)
Inductive lex_lt : string → string → Prop :=
  | lex_lt_nil c b : lex_lt EmptyString (String c b)
  | lex_lt_head x y a b :
      (N_of_ascii x < N_of_ascii y)%N → lex_lt (String x a) (String y b)
  | lex_lt_tail x a b : lex_lt a b → lex_lt (String x a) (String x b).

(** Steps (1) and (2): what a record has to satisfy to stay. *)
Definition kept (filter searchTerm : string) (c : Character) : Prop :=
  (filter ≠ "All" → status c = filter) ∧
  (searchTerm ≠ "" →
     contains (JsString.toLowerCase (name c)) (JsString.toLowerCase searchTerm)).

(** [l'] is [l] without the elements that do not satisfy [P]. *)
Inductive keeping {A} (P : A → Prop) : list A → list A → Prop :=
  | keeping_nil : keeping P [] []
  | keeping_take x l l' : P x → keeping P l l' → keeping P (x :: l) (x :: l')
  | keeping_skip x l l' : ¬ P x → keeping P l l' → keeping P (x :: l) l'.

(** Step (3): [a] may stand before [b]. *)
Definition in_order (sortOrder : SortOrder) (a b : Character) : Prop :=
  match sortOrder with
  | asc => ¬ lex_lt (name b) (name a)
  | desc => ¬ lex_lt (name a) (name b)
  end.

(** The derived view: the survivors of (1) and (2), rearranged so that they
    stand in the order of (3). *)
Definition derived_view (collection : list Character) (filter searchTerm : string)
    (sortOrder : SortOrder) (view : list Character) : Prop :=
  ∃ survivors,
    keeping (kept filter searchTerm) collection survivors ∧
    view ≡ₚ survivors ∧
    StronglySorted (in_order sortOrder) view.

End Spec.

(** ** Definitions used by the statements *)

(** The pipeline on the elements of the array: step (1), step (2), and the
    whole of it. *)
Definition statusStep (filter : string) (v : list Character) : list Character :=
  if negb (String.eqb filter "All") then List.filter (statusIs filter) v else v.

Definition searchStep (searchTerm : string) (v : list Character) : list Character :=
  if JsString.truthy searchTerm then List.filter (nameMatches searchTerm) v else v.

Definition viewOf (v : list Character) (filter searchTerm : string)
    (sortOrder : SortOrder) : list Character :=
  sorted_copy (compareFn sortOrder) (searchStep searchTerm (statusStep filter v)).

(** The pipeline copies the array exactly when it filters. *)
Definition copies (filter searchTerm : string) : bool :=
  negb (String.eqb filter "All") || JsString.truthy searchTerm.

(** The two filters together keep a record exactly when the spec keeps it. *)
Definition keptb (filter searchTerm : string) (c : Character) : bool :=
  (String.eqb filter "All" || statusIs filter c)
  && (negb (JsString.truthy searchTerm) || nameMatches searchTerm c).

(** The record seen last with identifier [k] in [l]. *)
Fixpoint lastWithId (k : Z) (l : list Character) : option Character :=
  match l with
  | [] => None
  | r :: l' =>
      match lastWithId k l' with
      | Some x => Some x
      | None => if decide (id r = k) then Some r else None
      end
  end.

(** [newCharacters.map(character => [character.id, character])] *)
Definition entries (l : list Character) : list (Z * Character) :=
  List.map (λ character, (id character, character)) l.

(** The record that stands for [c] after a merge with [page]: the last record
    of [page] with the identifier of [c] when there is one, [c] itself
    otherwise. *)
Definition refreshed (page : list Character) (c : Character) : Character :=
  default c (lastWithId (id c) page).

(** [r] has an identifier that [all] does not have. *)
Definition isNew (all : list Character) (r : Character) : bool :=
  bool_decide (id r ∉ List.map id all).

(** The claim on positions, as a predicate on one merge: every position of
    the existing collection holds, after the merge, the record that stands for
    the one it held. *)
Definition keeps_positions (all page : list Character) : Prop :=
  ∀ i c, all !! i = Some c → uniqueCharacters all page !! i = Some (refreshed page c).

(** Sample records, a sample store and sample states. *)
Definition rick : Character := mkCharacter 1 "Rick Sanchez" "Alive" "rick.jpeg".
Definition morty : Character := mkCharacter 2 "Morty Smith" "Alive" "morty.jpeg".
Definition beth : Character := mkCharacter 4 "Beth Smith" "Dead" "beth.jpeg".
Definition summer : Character := mkCharacter 3 "Summer Smith" "Alive" "summer.jpeg".

Definition sampleHeap : gmap nat (list Character) := {[ 0%nat := [rick; morty; beth] ]}.

(** The overlay states of the spec, read on the selection and on the two
    visibility flags. *)
Definition Idle (st : State) : Prop :=
  selectedCharacter st = None ∧ isModalVisible st = false ∧ isEditModalVisible st = false.

Definition DetailOpen (st : State) : Prop :=
  is_Some (selectedCharacter st) ∧ isModalVisible st = true ∧ isEditModalVisible st = false.

Definition EditOpen (st : State) : Prop :=
  is_Some (selectedCharacter st) ∧ isModalVisible st = false ∧ isEditModalVisible st = true.

(** The first render over three records. *)
Definition firstRender : State := initialState [rick; morty; beth] [rick; morty] "" "All" asc.

(** A call of [loadMoreCharacters] is waiting for page 1. *)
Definition waiting : State := loadMoreCharacters firstRender.

(** The detail overlay is open on Rick. *)
Definition detailOnRick : State := openModal rick firstRender.

(** The edit overlay is open on Rick. *)
Definition editingRick : State := handleEdit rick detailOnRick.

(** A response that makes the [try] block throw. *)
Definition failed (r : Response) : bool :=
  match r with
  | Rejected _ | Body None => true
  | Body (Some _) => false
  end.

(** The identifiers of [l] that are not in [seen], each once, in the order in
    which they first appear. *)
Fixpoint firstOccurrences (seen l : list Z) : list Z :=
  match l with
  | [] => []
  | k :: l' =>
      if decide (k ∈ seen) then firstOccurrences seen l'
      else k :: firstOccurrences (seen ++ [k]) l'
  end.

(** The events of the pagination: the list reaches its end, a response
    arrives. *)
Definition paginates (e : Event) : bool :=
  match e with
  | EndReached | Fetched _ => true
  | _ => false
  end.

(** Pages in the order of a reader who never skips: each one is the page
    before it or the next. *)
Fixpoint inPageOrder (previous : Z) (l : list Z) : Prop :=
  match l with
  | [] => True
  | p :: l' => (p = previous ∨ p = previous + 1) ∧ inPageOrder p l'
  end.

(** The same, starting at page 1. *)
Definition requestsInOrder (l : list Z) : Prop :=
  match l with
  | [] => True
  | p :: l' => p = 1 ∧ inPageOrder 1 l'
  end.

(** What the pagination keeps true of its cursor, its flag, the call that
    waits and the requests sent. *)
Definition paginationInv (st : State) : Prop :=
  (loadingMore st = true ↔ is_Some (inFlight st)) ∧
  (∀ req, inFlight st = Some req →
          req_page req = page st ∧ last (network st) = Some (page st)) ∧
  match last (network st) with
  | None => page st = 1
  | Some p => page st = p ∨ page st = p + 1
  end ∧
  requestsInOrder (network st).

(** ** What the component shows (lines 150-200) *)

(** [item.id.toString()], the key of an item of the list, for an integer
    identifier that prints without an exponent: its decimal digits, after a
    minus sign when it is negative. *)
Definition keyExtractor (item : Character) : string :=
  NilZero.string_of_int (Z.to_int (id item)).

(** A card of the list: the key the list gives it, the image and the name
    that [renderItem] puts on it. *)
Record Card : Type := mkCard {
  card_key : string;
  card_uri : string;
  card_text : string
}.

Definition renderItem (item : Character) : Card :=
  mkCard (keyExtractor item) (image item) (name item).

(** Where the list stands: the message for an empty view, or the list. *)
Inductive ListArea : Type :=
  | NoResults (text : string)
  | FlatList (data : list Card).

(** The view the component returns when the hook is not loading: the list
    area, the optional line under it, the detail overlay with its record and
    visibility, and the edit overlay, mounted only with a selection. *)
Record Screen : Type := mkScreen {
  listArea : ListArea;
  loadingMoreText : option string;
  characterModal : option Character * bool;
  editModal : option (Character * bool)
}.

Inductive Rendered : Type :=
  | LoadingText (text : string)
  | Shown (screen : Screen).

(** Lines 161-200: what the component returns when React renders it in the
    state [st]; [isLoading] is the flag of the hook. React renders again when a
    setter was given a value other than the one the state held; a setter given
    the very array the state holds leaves the screen as it was. [None] is a
    view that the store does not hold. *)
Definition render (isLoading : bool) (st : State) : option Rendered :=
  if isLoading then Some (LoadingText "Loading...")
  else
    match heap st !! filteredCharacters st with
    | None => None
    | Some filtered =>
        Some (Shown
          {| listArea :=
               if Z.of_nat (length filtered) =? 0
               then NoResults "Nenhum personagem encontrado."
               else FlatList (List.map renderItem filtered);
             loadingMoreText :=
               if loadingMore st then Some "Carregando mais personagens..." else None;
             characterModal := (selectedCharacter st, isModalVisible st);
             editModal :=
               match selectedCharacter st with
               | Some character => Some (character, isEditModalVisible st)
               | None => None
               end |})
    end.

(** * Properties *)

(** ** The handler of the latest render and the continuation of its call *)

Lemma loadMoreCharacters_unfold st :
  loadMoreCharacters st
  = if loadingMore st || negb (hasMore st) then st
    else setInFlight (Some (mkRequest (page st) (allCharacters st)))
           (fetch (page st) (setLoadingMore true st)).
Proof. reflexivity. Qed.

Lemma loadMoreCharacters_resume_unfold r st :
  loadMoreCharacters_resume r st
  = match inFlight st with
    | None => Some st
    | Some req =>
        match r with
        | Rejected error =>
            Some (setInFlight None (setLoadingMore false (console_error logMessage error st)))
        | Body results =>
            match loadMoreCharacters_try req results st with
            | Some (Some st') => Some (setInFlight None (setLoadingMore false st'))
            | Some None =>
                Some (setInFlight None
                        (setLoadingMore false (console_error logMessage "TypeError" st)))
            | None => None
            end
        end
    end.
Proof.
  unfold loadMoreCharacters_resume, loadMoreCharacters_after.
  destruct (inFlight st) as [req|]; [|done].
  destruct r as [error|results]; [done|].
  by destruct (loadMoreCharacters_try req results st) as [[st'|]|].
Qed.

(** ** Strings *)

Section strings.

Lemma startsWith_spec s t :
  JsString.startsWith s t = true ↔ ∃ post, s = t +:+ post.
Proof.
  revert s. induction t as [|y t IH]; intros s; simpl.
  - split; [intros _; by exists s | done].
  - destruct s as [|x s]; simpl.
    + split; [done | intros [post H]; discriminate].
    + destruct (Ascii.eqb_spec x y) as [->|Hne].
      * rewrite IH. split; intros [post H]; exists post; [by rewrite H | by injection H].
      * split; [done | intros [post H]; injection H as H1 H2; done].
Qed.

Lemma includes_spec s t :
  JsString.includes s t = true ↔ Spec.contains s t.
Proof.
  unfold Spec.contains. induction s as [|x s IH]; simpl.
  - rewrite orb_false_r, startsWith_spec. split.
    + intros [post H]. by exists EmptyString, post.
    + intros ([|c pre] & post & H); [by exists post | discriminate].
  - rewrite orb_true_iff, IH, startsWith_spec. split.
    + intros [[post H] | (pre & post & H)].
      * by exists EmptyString, post.
      * exists (String x pre), post. simpl. by rewrite H.
    + intros ([|c pre] & post & H); simpl in H.
      * left. by exists post.
      * right. injection H as _ H. by exists pre, post.
Qed.

Lemma lt_spec a b : JsString.lt a b = true ↔ Spec.lex_lt a b.
Proof.
  revert b. induction a as [|x a IH]; intros [|y b]; simpl.
  - split; [done | inversion 1].
  - split; [constructor | done].
  - split; [done | inversion 1].
  - destruct (N.ltb_spec (N_of_ascii x) (N_of_ascii y)) as [Hxy|Hxy].
    { split; [by constructor | done]. }
    destruct (N.ltb_spec (N_of_ascii y) (N_of_ascii x)) as [Hyx|Hyx].
    { split; [done | inversion 1; subst; [lia | lia]]. }
    assert (x = y) as ->.
    { rewrite <- (ascii_N_embedding x), <- (ascii_N_embedding y). f_equal. lia. }
    rewrite IH. split; [by constructor | inversion 1; subst; [lia | done]].
Qed.

Lemma lt_irrefl a : JsString.lt a a = false.
Proof.
  induction a as [|x a IH]; simpl; [done|].
  by rewrite N.ltb_irrefl.
Qed.

Lemma lt_trans a b c :
  JsString.lt a b = true → JsString.lt b c = true → JsString.lt a c = true.
Proof.
  revert b c. induction a as [|x a IH]; intros [|y b] [|z c]; simpl; try done.
  destruct (N.ltb_spec (N_of_ascii x) (N_of_ascii y)),
           (N.ltb_spec (N_of_ascii y) (N_of_ascii x)),
           (N.ltb_spec (N_of_ascii y) (N_of_ascii z)),
           (N.ltb_spec (N_of_ascii z) (N_of_ascii y)),
           (N.ltb_spec (N_of_ascii x) (N_of_ascii z)),
           (N.ltb_spec (N_of_ascii z) (N_of_ascii x));
    try done; try lia.
  apply IH.
Qed.

Lemma lt_trichotomy a b :
  JsString.lt a b = true ∨ a = b ∨ JsString.lt b a = true.
Proof.
  revert b. induction a as [|x a IH]; intros [|y b]; simpl; auto.
  destruct (N.ltb_spec (N_of_ascii x) (N_of_ascii y)); [by left|].
  destruct (N.ltb_spec (N_of_ascii y) (N_of_ascii x)); [by right; right|].
  assert (x = y) as ->.
  { rewrite <- (ascii_N_embedding x), <- (ascii_N_embedding y). f_equal. lia. }
  destruct (IH b) as [?|[->|?]]; auto.
Qed.

Lemma lt_asym a b : JsString.lt a b = true → JsString.lt b a = false.
Proof.
  intros Hab. destruct (JsString.lt b a) eqn:Hba; [|done].
  by rewrite <- (lt_irrefl a), (lt_trans a b a).
Qed.

(** Not being greater is transitive. *)
Lemma not_lt_trans a b c :
  JsString.lt b a = false → JsString.lt c b = false → JsString.lt c a = false.
Proof.
  intros Hba Hcb. destruct (JsString.lt c a) eqn:Hca; [|done].
  destruct (lt_trichotomy c b) as [H|[->|H]]; [congruence..|].
  by rewrite (lt_trans b c a) in Hba.
Qed.

End strings.

(** ** Sorting with a comparator *)

Section sorting.

Context {A : Type} (cmp : A → A → Z).

Local Abbreviation le := (λ x y, cmp x y ≤ 0).

Lemma sortInsert_perm x l : sortInsert cmp x l ≡ₚ x :: l.
Proof.
  induction l as [|y l IH]; simpl; [done|].
  destruct (cmp x y <=? 0); [done|].
  rewrite IH. apply Permutation_swap.
Qed.

Lemma sorted_copy_perm l : sorted_copy cmp l ≡ₚ l.
Proof.
  induction l as [|x l IH]; simpl; [done|].
  fold (sorted_copy cmp l). by rewrite sortInsert_perm, IH.
Qed.

(** An array that is in order already is left as it is: the sort is stable. *)
Lemma sorted_copy_fixed l : StronglySorted le l → sorted_copy cmp l = l.
Proof.
  induction 1 as [|x l Hl IH Hx]; simpl; [done|].
  fold (sorted_copy cmp l). rewrite IH.
  destruct Hx as [|y l Hxy _]; simpl; [done|].
  by rewrite (proj2 (Z.leb_le _ _) Hxy).
Qed.

Hypothesis cmp_total : ∀ x y, cmp x y ≤ 0 ∨ cmp y x ≤ 0.
Hypothesis cmp_trans : ∀ x y z, cmp x y ≤ 0 → cmp y z ≤ 0 → cmp x z ≤ 0.

Lemma sortInsert_sorted x l :
  StronglySorted le l → StronglySorted le (sortInsert cmp x l).
Proof.
  induction 1 as [|y l Hl IH Hy]; simpl.
  - by repeat constructor.
  - destruct (Z.leb_spec (cmp x y) 0) as [Hxy|Hxy].
    + constructor; [by constructor|].
      constructor; [done|].
      eapply Forall_impl; [exact Hy|]. intros z Hz. simpl in *. by eapply cmp_trans.
    + constructor; [done|].
      rewrite sortInsert_perm. constructor; [|done].
      destruct (cmp_total x y); [lia | done].
Qed.

Lemma sorted_copy_sorted l : StronglySorted le (sorted_copy cmp l).
Proof.
  induction l as [|x l IH]; simpl; [constructor|].
  by apply sortInsert_sorted.
Qed.

End sorting.

(** The comparator of the pipeline is a consistent ordering, and it is the
    order of the spec. *)
Lemma compareFn_le sortOrder a b :
  compareFn sortOrder a b ≤ 0 ↔ Spec.in_order sortOrder a b.
Proof.
  unfold compareFn, Spec.in_order.
  destruct sortOrder; simpl; rewrite <- lt_spec;
    destruct (JsString.lt (name a) (name b)) eqn:Hab;
    destruct (JsString.lt (name b) (name a)) eqn:Hba;
    try (apply lt_asym in Hab; congruence);
    split; intros; try done; try lia.
Qed.

Lemma compareFn_total sortOrder a b :
  compareFn sortOrder a b ≤ 0 ∨ compareFn sortOrder b a ≤ 0.
Proof.
  unfold compareFn.
  destruct sortOrder; simpl;
    destruct (JsString.lt (name a) (name b)) eqn:Hab;
    destruct (JsString.lt (name b) (name a)) eqn:Hba;
    try (apply lt_asym in Hab; congruence); lia.
Qed.

Lemma compareFn_trans sortOrder a b c :
  compareFn sortOrder a b ≤ 0 → compareFn sortOrder b c ≤ 0 → compareFn sortOrder a c ≤ 0.
Proof.
  rewrite !compareFn_le. unfold Spec.in_order.
  destruct sortOrder; rewrite <- !lt_spec, !not_true_iff_false; intros H1 H2.
  - by apply (not_lt_trans _ (name b)).
  - by apply (not_lt_trans _ (name b)).
Qed.

Lemma sorted_copy_in_order sortOrder l :
  StronglySorted (Spec.in_order sortOrder) (sorted_copy (compareFn sortOrder) l).
Proof.
  pose proof (sorted_copy_sorted (compareFn sortOrder)
                (compareFn_total sortOrder) (compareFn_trans sortOrder) l) as H.
  induction H as [|x v Hv IH Hx]; constructor; [done|].
  eapply Forall_impl; [exact Hx|]. intros b. apply compareFn_le.
Qed.

(** ** The store *)

Lemma fresh_unused (h : gmap nat (list Character)) : h !! fresh (dom h) = None.
Proof. apply not_elem_of_dom, is_fresh. Qed.

Lemma newArray_run v (h : gmap nat (list Character)) :
  ∃ r, newArray v h = Some (r, <[r := v]> h) ∧ h !! r = None.
Proof. exists (fresh (dom h)). split; [done | apply fresh_unused]. Qed.

Lemma Array_filter_run a p (h : gmap nat (list Character)) v :
  h !! a = Some v →
  ∃ r, Array_filter a p h = Some (r, <[r := List.filter p v]> h) ∧ h !! r = None.
Proof.
  intros Ha. unfold Array_filter, bind, readArray. rewrite Ha. apply newArray_run.
Qed.

Lemma Array_map_run a f (h : gmap nat (list Character)) v :
  h !! a = Some v →
  ∃ r, Array_map a f h = Some (r, <[r := List.map f v]> h) ∧ h !! r = None.
Proof.
  intros Ha. unfold Array_map, bind, readArray. rewrite Ha. apply newArray_run.
Qed.

Lemma Array_sort_run a cmp (h : gmap nat (list Character)) v :
  h !! a = Some v →
  Array_sort a cmp h = Some (a, <[a := sorted_copy cmp v]> h).
Proof. intros Ha. unfold Array_sort, bind, readArray. by rewrite Ha. Qed.

(** What a run of the pipeline returns and what it does to the store: the
    array returned holds the view, it is a new array when a filter ran and the
    array passed in when none did, and every other array is as before. *)
Lemma pipeline_run (h : gmap nat (list Character)) characters v filter searchTerm sortOrder :
  h !! characters = Some v →
  ∃ r h',
    getFilteredAndSortedCharacters characters filter searchTerm sortOrder h = Some (r, h') ∧
    h' !! r = Some (viewOf v filter searchTerm sortOrder) ∧
    (∀ l x, l ≠ r → h !! l = Some x → h' !! l = Some x) ∧
    (if copies filter searchTerm then h !! r = None else r = characters).
Proof.
  intros Hc.
  unfold getFilteredAndSortedCharacters, viewOf, statusStep, searchStep, copies.
  destruct (negb (String.eqb filter "All")); destruct (JsString.truthy searchTerm);
    cbv [bind ret]; simpl.
  - destruct (Array_filter_run characters (statusIs filter) h v Hc) as (r1 & -> & Hr1).
    destruct (Array_filter_run r1 (nameMatches searchTerm) (<[r1 := List.filter (statusIs filter) v]> h)
                _ (lookup_insert_eq _ _ _)) as (r2 & -> & Hr2).
    erewrite Array_sort_run by apply lookup_insert_eq.
    eexists _, _. split; [done|].
    assert (r2 ≠ r1) as Hne by (intros ->; by rewrite lookup_insert_eq in Hr2).
    rewrite lookup_insert_ne in Hr2 by done.
    split; [by rewrite lookup_insert_eq|]. split; [|done].
    intros l x Hl Hx. by rewrite !lookup_insert_ne by (done || congruence).
  - destruct (Array_filter_run characters (statusIs filter) h v Hc) as (r1 & -> & Hr1).
    erewrite Array_sort_run by apply lookup_insert_eq.
    eexists _, _. split; [done|].
    split; [by rewrite lookup_insert_eq|]. split; [|done].
    intros l x Hl Hx. by rewrite !lookup_insert_ne by (done || congruence).
  - destruct (Array_filter_run characters (nameMatches searchTerm) h v Hc) as (r1 & -> & Hr1).
    erewrite Array_sort_run by apply lookup_insert_eq.
    eexists _, _. split; [done|].
    split; [by rewrite lookup_insert_eq|]. split; [|done].
    intros l x Hl Hx. by rewrite !lookup_insert_ne by (done || congruence).
  - erewrite Array_sort_run by exact Hc.
    eexists _, _. split; [done|].
    split; [by rewrite lookup_insert_eq|]. split; [|done].
    intros l x Hl Hx. by rewrite lookup_insert_ne.
Qed.

Lemma truthy_spec s : JsString.truthy s = true ↔ s ≠ "".
Proof. by destruct s. Qed.

Lemma keptb_spec filter searchTerm c :
  keptb filter searchTerm c = true ↔ Spec.kept filter searchTerm c.
Proof.
  unfold keptb, Spec.kept, statusIs, nameMatches.
  rewrite andb_true_iff, !orb_true_iff, negb_true_iff, <- not_true_iff_false.
  rewrite truthy_spec, includes_spec, !String.eqb_eq.
  split.
  - intros [H1 H2]. split; intros H; [by destruct H1 | by destruct H2].
  - intros [H1 H2]. split.
    + destruct (decide (filter = "All")); auto.
    + destruct (decide (searchTerm = "")); [left | right]; auto.
Qed.

Lemma filter_all {A} (p : A → bool) l : (∀ x, x ∈ l → p x = true) → List.filter p l = l.
Proof.
  induction l as [|x l IH]; simpl; intros H; [done|].
  rewrite H by left. f_equal. apply IH. intros y Hy. apply H. by right.
Qed.

Lemma filter_filter {A} (p q : A → bool) l :
  List.filter q (List.filter p l) = List.filter (λ x, p x && q x) l.
Proof.
  induction l as [|x l IH]; simpl; [done|].
  destruct (p x); simpl; [destruct (q x)|]; by rewrite IH.
Qed.

Lemma steps_filter filter searchTerm v :
  searchStep searchTerm (statusStep filter v) = List.filter (keptb filter searchTerm) v.
Proof.
  unfold searchStep, statusStep, keptb.
  destruct (String.eqb filter "All"); destruct (JsString.truthy searchTerm); simpl.
  - done.
  - by rewrite filter_all.
  - by rewrite filter_filter.
  - apply filter_ext. intros c. by rewrite andb_true_r.
Qed.

Lemma keeping_filter {A} (P : A → Prop) (p : A → bool) l :
  (∀ x, p x = true ↔ P x) → Spec.keeping P l (List.filter p l).
Proof.
  intros Hp. induction l as [|x l IH]; simpl; [constructor|].
  destruct (p x) eqn:Hx.
  - apply Spec.keeping_take; [by apply Hp | done].
  - apply Spec.keeping_skip; [|done]. rewrite <- Hp. congruence.
Qed.

Lemma viewOf_derived v filter searchTerm sortOrder :
  Spec.derived_view v filter searchTerm sortOrder (viewOf v filter searchTerm sortOrder).
Proof.
  exists (List.filter (keptb filter searchTerm) v). unfold viewOf. rewrite steps_filter.
  split; [apply keeping_filter, keptb_spec|].
  split; [apply sorted_copy_perm | apply sorted_copy_in_order].
Qed.

(** A second pass over a view changes nothing. *)
Lemma viewOf_idempotent v filter searchTerm sortOrder :
  viewOf (viewOf v filter searchTerm sortOrder) filter searchTerm sortOrder
  = viewOf v filter searchTerm sortOrder.
Proof.
  unfold viewOf. rewrite !steps_filter.
  set (w := List.filter _ v).
  rewrite (filter_all _ (sorted_copy _ w)).
  - apply sorted_copy_fixed, sorted_copy_sorted; [apply compareFn_total | apply compareFn_trans].
  - intros c Hc. rewrite sorted_copy_perm in Hc.
    apply list_elem_of_In, filter_In in Hc. tauto.
Qed.

(** ** The merge by identifier *)

Section merge.

Implicit Types (m acc : list (Z * Character)) (l page : list Character).

Lemma lastWithId_snoc k l r :
  lastWithId k (l ++ [r]) = if decide (id r = k) then Some r else lastWithId k l.
Proof.
  induction l as [|x l IH]; simpl; [done|].
  rewrite IH. destruct (decide (id r = k)); [done|]. by destruct (lastWithId k l).
Qed.

Lemma lastWithId_Some k l c : lastWithId k l = Some c → id c = k ∧ c ∈ l.
Proof.
  induction l as [|x l IH]; simpl; [done|].
  destruct (lastWithId k l) as [y|].
  - intros [= ->]. destruct IH as [? ?]; [done|]. split; [done | by right].
  - destruct (decide (id x = k)); [|done]. intros [= ->]. split; [done | by left].
Qed.

Lemma lastWithId_is_Some k l : k ∈ List.map id l → is_Some (lastWithId k l).
Proof.
  induction l as [|x l IH]; simpl; [by intros ?%elem_of_nil|].
  intros [->|H]%elem_of_cons.
  - destruct (lastWithId (id x) l); [done|]. by rewrite decide_True.
  - destruct (IH H) as [y ->]. done.
Qed.

Lemma lastWithId_app k l page c :
  lastWithId k page = Some c → lastWithId k (l ++ page) = Some c.
Proof. intros H. induction l as [|x l IH]; simpl; [done|]. by rewrite IH. Qed.

Lemma Map_set_fresh k v m : k ∉ List.map fst m → Map_set k v m = m ++ [(k, v)].
Proof.
  induction m as [|[k' v'] m IH]; simpl; [done|].
  intros H. apply not_elem_of_cons in H as [Hne Hm].
  rewrite decide_False by done. by rewrite IH.
Qed.

Lemma Map_set_present k v m :
  NoDup (List.map fst m) → k ∈ List.map fst m →
  Map_set k v m = List.map (λ e, if decide (e.1 = k) then (k, v) else e) m.
Proof.
  induction m as [|[k' v'] m IH]; simpl; [by intros _ ?%elem_of_nil|].
  intros [Hk' Hm]%NoDup_cons Hk. destruct (decide (k' = k)) as [->|Hne].
  - f_equal. symmetry. etrans; [|apply (List.map_id m)]. apply map_ext_in.
    intros [k1 v1] Hin. rewrite decide_False; [done|].
    simpl. intros ->. apply Hk'. apply list_elem_of_In in Hin.
    by apply (list_elem_of_fmap_2 fst) in Hin.
  - apply elem_of_cons in Hk as [->|Hk]; [done|]. by rewrite IH.
Qed.

Lemma Map_set_keys k v m :
  List.map fst (Map_set k v m)
  = if decide (k ∈ List.map fst m) then List.map fst m else List.map fst m ++ [k].
Proof.
  induction m as [|[k' v'] m IH]; simpl; [done|].
  destruct (decide (k' = k)) as [->|Hne]; simpl.
  - by rewrite decide_True by left.
  - rewrite IH. destruct (decide (k ∈ List.map fst m)).
    + by rewrite decide_True by by right.
    + rewrite decide_False; [done|]. by intros [->|]%elem_of_cons.
Qed.

Lemma Map_set_NoDup k v m : NoDup (List.map fst m) → NoDup (List.map fst (Map_set k v m)).
Proof.
  intros H. rewrite Map_set_keys. destruct (decide _) as [|Hk]; [done|].
  apply NoDup_app. split; [done|]. split; [|apply NoDup_singleton].
  intros x Hx ->%list_elem_of_singleton. done.
Qed.

Lemma Map_set_elem k v m k0 v0 :
  NoDup (List.map fst m) →
  (k0, v0) ∈ Map_set k v m ↔ (k0 = k ∧ v0 = v) ∨ (k0 ≠ k ∧ (k0, v0) ∈ m).
Proof.
  intros Hm. destruct (decide (k ∈ List.map fst m)) as [Hk|Hk].
  - rewrite Map_set_present by done. rewrite list_elem_of_fmap. split.
    + intros ([k1 v1] & Heq & Hin). simpl in Heq.
      destruct (decide (k1 = k)); inversion Heq; subst; auto.
    + intros [[-> ->]|[Hne Hin]].
      * apply list_elem_of_fmap in Hk as ([k1 v1] & -> & Hin).
        exists (k1, v1). simpl. by rewrite decide_True.
      * exists (k0, v0). simpl. by rewrite decide_False.
  - rewrite Map_set_fresh by done. rewrite elem_of_app, list_elem_of_singleton. split.
    + intros [Hin|[= -> ->]]; [|auto]. right. split; [|done].
      intros ->. apply Hk. by apply (list_elem_of_fmap_2 fst) in Hin.
    + intros [[-> ->]|[_ Hin]]; auto.
Qed.

Lemma Map_new_snoc es e : Map_new (es ++ [e]) = Map_set e.1 e.2 (Map_new es).
Proof. unfold Map_new. by rewrite foldl_app. Qed.

(** The map built from [l]: each identifier of [l] once, with the record
    that [l] has last for it. *)
Lemma Map_new_spec l :
  NoDup (List.map fst (Map_new (entries l))) ∧
  ∀ k v, (k, v) ∈ Map_new (entries l) ↔ lastWithId k l = Some v.
Proof.
  induction l as [|r l [IH1 IH2]] using rev_ind.
  - split; [constructor|]. intros k v. simpl. split; [by intros ?%elem_of_nil | done].
  - unfold entries. rewrite map_app. simpl. rewrite Map_new_snoc. simpl.
    fold (entries l). split; [by apply Map_set_NoDup|].
    intros k v. rewrite Map_set_elem by done. rewrite lastWithId_snoc, IH2.
    destruct (decide (id r = k)) as [->|Hne].
    + split; [by intros [[_ ->]|[? _]] | intros [= ->]; auto].
    + split; [by intros [[-> _]|[_ ?]] | intros H; right; split; [congruence | done]].
Qed.

Lemma uniqueCharacters_elem all page c :
  c ∈ uniqueCharacters all page ↔ lastWithId (id c) (all ++ page) = Some c.
Proof.
  unfold uniqueCharacters, Map_values. fold (entries (all ++ page)).
  destruct (Map_new_spec (all ++ page)) as [_ H]. rewrite list_elem_of_fmap. split.
  - intros ([k v] & -> & Hin). simpl. apply H in Hin as Hl.
    apply lastWithId_Some in Hl as Hk. destruct Hk as [-> _]. done.
  - intros Hl. exists (id c, c). split; [done|]. by apply H.
Qed.

Lemma uniqueCharacters_ids all page :
  List.map id (uniqueCharacters all page)
  = List.map fst (Map_new (entries (all ++ page))).
Proof.
  unfold uniqueCharacters, Map_values. fold (entries (all ++ page)).
  destruct (Map_new_spec (all ++ page)) as [_ H].
  rewrite List.map_map. apply map_ext_in. intros [k v] Hin. simpl.
  apply list_elem_of_In, H, lastWithId_Some in Hin. tauto.
Qed.

Lemma uniqueCharacters_NoDup all page : NoDup (List.map id (uniqueCharacters all page)).
Proof. rewrite uniqueCharacters_ids. apply Map_new_spec. Qed.

End merge.

(** ** Positions after the merge *)

Section positions.

Implicit Types (m acc : list (Z * Character)) (l all page : list Character).

Lemma lastWithId_filter k (p : Character → bool) l :
  (∀ x, id x = k → p x = true) →
  lastWithId k (List.filter p l) = lastWithId k l.
Proof.
  intros Hp. induction l as [|x l IH]; simpl; [done|].
  destruct (p x) eqn:Hx; simpl; rewrite IH; [done|].
  destruct (lastWithId k l); [done|].
  destruct (decide (id x = k)) as [Heq|]; [|done].
  apply Hp in Heq. congruence.
Qed.

Lemma lastWithId_other k r l :
  id r ≠ k → lastWithId k (r :: l) = lastWithId k l.
Proof. intros H. simpl. rewrite decide_False by done. by destruct (lastWithId k l). Qed.

Lemma filter_length_le {A} (p : A → bool) (l : list A) :
  (length (List.filter p l) ≤ length l)%nat.
Proof. induction l as [|x l IH]; simpl; [done|]. destruct (p x); simpl; lia. Qed.

Lemma foldl_set_split n : ∀ page acc,
  (length page ≤ n)%nat → NoDup (List.map fst acc) →
  foldl (λ m e, Map_set e.1 e.2 m) acc (entries page)
  = List.map (λ e, (e.1, default e.2 (lastWithId e.1 page))) acc
    ++ Map_new (entries (List.filter (λ r, bool_decide (id r ∉ List.map fst acc)) page)).
Proof.
  induction n as [|n IH]; intros [|r page] acc Hn Hacc; simpl in *; try lia.
  - rewrite app_nil_r. symmetry. etrans; [|apply (List.map_id acc)].
    apply map_ext. by intros [].
  - rewrite app_nil_r. symmetry. etrans; [|apply (List.map_id acc)].
    apply map_ext. by intros [].
  - destruct (decide (id r ∈ List.map fst acc)) as [Hr|Hr].
    + rewrite bool_decide_eq_false_2 by auto.
      rewrite IH by (lia || by apply Map_set_NoDup).
      rewrite Map_set_keys, decide_True by done. f_equal.
      rewrite Map_set_present by done. rewrite List.map_map.
      apply map_ext. intros [k v]. simpl.
      destruct (decide (k = id r)) as [->|Hne]; simpl.
      * rewrite decide_True by done. by destruct (lastWithId (id r) page).
      * rewrite decide_False by done. by destruct (lastWithId k page).
    + rewrite bool_decide_eq_true_2 by done. simpl.
      rewrite Map_set_fresh by done.
      assert (NoDup (List.map fst (acc ++ [(id r, r)]))) as Hacc'.
      { rewrite map_app. apply NoDup_app. split; [done|].
        split; [|apply NoDup_singleton]. by intros x Hx ->%list_elem_of_singleton. }
      rewrite IH by (lia || done).
      unfold Map_new at 2. simpl. fold (entries (List.filter
        (λ r0, bool_decide (id r0 ∉ List.map fst acc)) page)).
      rewrite (IH _ [(id r, r)]); [|etrans; [apply filter_length_le | lia]
                                    |apply NoDup_singleton].
      rewrite map_app, <- app_assoc. simpl. f_equal; [|f_equal].
      * apply map_ext_in. intros [k v] Hin. simpl.
        rewrite decide_False; [by destruct (lastWithId k page)|].
        intros <-. apply Hr. apply list_elem_of_In in Hin.
        by apply (list_elem_of_fmap_2 fst) in Hin.
      * rewrite lastWithId_filter; [done|].
        intros x ->. by apply bool_decide_eq_true_2.
      * rewrite filter_filter. f_equal. f_equal. apply filter_ext. intros x.
        rewrite map_app. simpl.
        destruct (decide (id x ∈ List.map fst acc)) as [Hx|Hx].
        { rewrite (bool_decide_eq_false_2 (id x ∉ List.map fst acc)) by auto.
          apply bool_decide_eq_false_2. intros H. apply H, elem_of_app. by left. }
        rewrite (bool_decide_eq_true_2 _ Hx). simpl.
        apply bool_decide_ext. rewrite elem_of_app. tauto.
Qed.

Lemma Map_new_distinct l : NoDup (List.map id l) → Map_new (entries l) = entries l.
Proof.
  induction l as [|r l IH] using rev_ind; [done|].
  rewrite map_app. intros [Hl [Hr _]]%NoDup_app.
  unfold entries. rewrite map_app. simpl. rewrite Map_new_snoc. simpl.
  fold (entries l). rewrite IH by done. apply Map_set_fresh.
  unfold entries. rewrite List.map_map. simpl.
  intros H. apply (Hr _ H). by left.
Qed.

Lemma uniqueCharacters_alone page :
  NoDup (List.map id page) → uniqueCharacters [] page = page.
Proof.
  intros H. unfold uniqueCharacters, Map_values. simpl. fold (entries page).
  rewrite Map_new_distinct by done. unfold entries. rewrite List.map_map. simpl.
  apply List.map_id.
Qed.

(** The merge, position by position, for a collection with distinct
    identifiers: the collection with every record refreshed, then the merge
    of the new records of the page alone. *)
Lemma uniqueCharacters_split all page :
  NoDup (List.map id all) →
  uniqueCharacters all page
  = List.map (refreshed page) all ++ uniqueCharacters [] (List.filter (isNew all) page).
Proof.
  intros Hall. unfold uniqueCharacters at 1, Map_values. fold (entries (all ++ page)).
  unfold entries at 1. rewrite map_app. fold (entries all) (entries page).
  unfold Map_new. rewrite foldl_app. fold (Map_new (entries all)).
  rewrite Map_new_distinct by done.
  assert (List.map fst (entries all) = List.map id all) as Hkeys.
  { unfold entries. by rewrite List.map_map. }
  rewrite (foldl_set_split (length page)) by (done || by rewrite Hkeys).
  rewrite map_app. f_equal.
  - unfold entries. by rewrite !List.map_map.
  - rewrite Hkeys. done.
Qed.

Lemma filter_distinct (p : Character → bool) l :
  NoDup (List.map id l) → NoDup (List.map id (List.filter p l)).
Proof.
  induction l as [|x l IH]; simpl; [done|].
  intros [Hx Hl]%NoDup_cons. destruct (p x); simpl; [|by apply IH].
  apply NoDup_cons. split; [|by apply IH].
  intros (y & Hy & Hin)%list_elem_of_fmap. apply Hx.
  apply list_elem_of_fmap. exists y. split; [done|].
  apply list_elem_of_In. apply list_elem_of_In, filter_In in Hin. tauto.
Qed.

End positions.

(** ** The pipeline: claims *)

Example scenario_morty :
  viewOf [mkCharacter 1 "Morty" "Alive" ""] "All" "" asc = [mkCharacter 1 "Morty" "Alive" ""].
Proof. reflexivity. Qed.

Example scenario_rick_beth_desc :
  List.map name (viewOf [mkCharacter 1 "Rick" "Alive" ""; mkCharacter 2 "Beth" "Alive" ""]
                   "All" "" desc) = ["Rick"; "Beth"].
Proof. reflexivity. Qed.

Example search_ignores_case :
  nameMatches "rick" rick = true ∧ nameMatches "RICK" rick = true ∧
  nameMatches "Sanc" rick = true ∧ nameMatches "Morty" rick = false.
Proof. repeat split; reflexivity. Qed.

(** C1. For every collection, status filter, search term and sort direction,
    the array the pipeline returns holds the derived view of the spec: the
    records kept by the status filter (unless it is "All") and by the search
    term (unless it is empty; the lowercased name has to contain the lowercased
    term), rearranged in the order of their names, ascending or descending. *)
Theorem pipeline_derived_view (h : gmap nat (list Character)) characters collection
    filter searchTerm sortOrder :
  h !! characters = Some collection →
  ∃ r h' view,
    getFilteredAndSortedCharacters characters filter searchTerm sortOrder h = Some (r, h') ∧
    h' !! r = Some view ∧
    Spec.derived_view collection filter searchTerm sortOrder view.
Proof.
  intros Hc.
  destruct (pipeline_run h characters collection filter searchTerm sortOrder Hc)
    as (r & h' & Hrun & Hview & _).
  exists r, h', (viewOf collection filter searchTerm sortOrder).
  split; [done|]. split; [done|]. apply viewOf_derived.
Qed.

Lemma pipeline_derived_view_witness :
  sampleHeap !! 0%nat = Some [rick; morty; beth] ∧
  ∃ r h' view,
    getFilteredAndSortedCharacters 0%nat "Alive" "S" desc sampleHeap = Some (r, h') ∧
    h' !! r = Some view ∧
    Spec.derived_view [rick; morty; beth] "Alive" "S" desc view.
Proof.
  split; [reflexivity|].
  apply (pipeline_derived_view sampleHeap 0%nat [rick; morty; beth] "Alive" "S" desc).
  reflexivity.
Defined.

(** When a filter runs, the array passed in is as before. *)
Lemma pipeline_copy_frame (h : gmap nat (list Character)) characters collection
    filter searchTerm sortOrder r h' :
  h !! characters = Some collection →
  copies filter searchTerm = true →
  getFilteredAndSortedCharacters characters filter searchTerm sortOrder h = Some (r, h') →
  r ≠ characters ∧ h' !! characters = Some collection.
Proof.
  intros Hc Hcopy Hrun.
  destruct (pipeline_run h characters collection filter searchTerm sortOrder Hc)
    as (r' & h'' & Hrun' & _ & Hframe & Hr).
  rewrite Hrun in Hrun'. injection Hrun' as <- <-. rewrite Hcopy in Hr.
  assert (r ≠ characters) by congruence.
  split; [done|]. by apply Hframe.
Qed.

(** When none runs, the array passed in is the one that is sorted. *)
Lemma pipeline_in_place (h : gmap nat (list Character)) characters collection sortOrder :
  h !! characters = Some collection →
  getFilteredAndSortedCharacters characters "All" "" sortOrder h
  = Some (characters, <[characters := sorted_copy (compareFn sortOrder) collection]> h).
Proof.
  intros Hc. unfold getFilteredAndSortedCharacters. cbv [bind ret]. simpl.
  by erewrite Array_sort_run.
Qed.

(** C2 (the code departs from it). With the filter "All" and an empty search
    term the pipeline sorts the array of the props itself: afterwards the
    parent's collection [Rick, Beth] is [Beth, Rick]. *)
Theorem pipeline_sorts_props_in_place :
  let h : gmap nat (list Character) := {[ 0%nat := [rick; beth] ]} in
  h !! 0%nat = Some [rick; beth] ∧
  ∃ h', getFilteredAndSortedCharacters 0%nat "All" "" asc h = Some (0%nat, h') ∧
        h' !! 0%nat = Some [beth; rick].
Proof.
  simpl. split; [reflexivity|].
  eexists. split; [by apply pipeline_in_place|]. by rewrite lookup_insert_eq.
Qed.

(** C9. Running the pipeline on the array it returned, with the same filter,
    search term and direction, returns an array with the same records in the
    same order. *)
Theorem pipeline_idempotent (h : gmap nat (list Character)) characters collection
    filter searchTerm sortOrder :
  h !! characters = Some collection →
  ∃ r h1 view,
    getFilteredAndSortedCharacters characters filter searchTerm sortOrder h = Some (r, h1) ∧
    h1 !! r = Some view ∧
    ∃ r2 h2,
      getFilteredAndSortedCharacters r filter searchTerm sortOrder h1 = Some (r2, h2) ∧
      h2 !! r2 = Some view.
Proof.
  intros Hc.
  destruct (pipeline_run h characters collection filter searchTerm sortOrder Hc)
    as (r & h1 & Hrun & Hview & _).
  destruct (pipeline_run h1 r _ filter searchTerm sortOrder Hview)
    as (r2 & h2 & Hrun2 & Hview2 & _).
  exists r, h1, (viewOf collection filter searchTerm sortOrder).
  split; [done|]. split; [done|]. exists r2, h2. split; [done|].
  by rewrite Hview2, viewOf_idempotent.
Qed.

Lemma pipeline_idempotent_witness :
  sampleHeap !! 0%nat = Some [rick; morty; beth] ∧
  ∃ r h1 view,
    getFilteredAndSortedCharacters 0%nat "All" "smith" asc sampleHeap = Some (r, h1) ∧
    h1 !! r = Some view ∧
    ∃ r2 h2,
      getFilteredAndSortedCharacters r "All" "smith" asc h1 = Some (r2, h2) ∧
      h2 !! r2 = Some view.
Proof.
  split; [reflexivity|].
  apply (pipeline_idempotent sampleHeap 0%nat [rick; morty; beth] "All" "smith" asc).
  reflexivity.
Defined.

(** ** Pagination: claims *)

(** The continuation on a page with records: one new array, the merge,
    published to the hook and to the view, and the cursor moved by one. *)
Lemma resume_page st req all results :
  inFlight st = Some req →
  heap st !! req_allCharacters req = Some all →
  results ≠ [] →
  ∃ r, heap st !! r = None ∧
    loadMoreCharacters_resume (Body (Some results)) st
    = Some (setInFlight None (setLoadingMore false (setPage (λ prev, prev + 1)
              (setFilteredCharacters r (updateCharacters r
                 (setHeap (<[r := uniqueCharacters all results]> (heap st)) st)))))).
Proof.
  intros Hreq Hall Hne. exists (fresh (dom (heap st))). split; [apply fresh_unused|].
  rewrite loadMoreCharacters_resume_unfold. unfold loadMoreCharacters_try. rewrite Hreq.
  destruct results as [|x results]; [done|]. simpl length.
  replace (0 <? Z.of_nat (S (length results))) with true by (symmetry; apply Z.ltb_lt; lia).
  unfold onHeap, bind, readArray, newArray. by rewrite Hall.
Qed.

(** C3. After a merge that succeeds (a page with at least one record came
    back), the collection published to the hook has every identifier at most
    once, has the identifier of every fetched record, and holds for an
    identifier of the page the record that the page has last for it, whatever
    the existing collection held under that identifier. *)
Theorem merge_unique_later_wins st req all results :
  inFlight st = Some req →
  heap st !! req_allCharacters req = Some all →
  results ≠ [] →
  ∃ st' merged,
    loadMoreCharacters_resume (Body (Some results)) st = Some st' ∧
    heap st' !! allCharacters st' = Some merged ∧
    NoDup (List.map id merged) ∧
    (∀ r, r ∈ results → id r ∈ List.map id merged) ∧
    (∀ c, c ∈ merged → id c ∈ List.map id results → lastWithId (id c) results = Some c).
Proof.
  intros Hreq Hall Hne.
  destruct (resume_page st req all results Hreq Hall Hne) as (r & Hr & ->).
  eexists _, (uniqueCharacters all results). split; [done|]. simpl.
  split; [by rewrite lookup_insert_eq|].
  split; [apply uniqueCharacters_NoDup|]. split.
  - intros x Hx.
    destruct (lastWithId_is_Some (id x) (all ++ results)) as [c Hc].
    { rewrite map_app, elem_of_app. right. by apply (list_elem_of_fmap_2 id). }
    apply lastWithId_Some in Hc as Hid. destruct Hid as [Hid _].
    rewrite <- Hid in Hc. apply uniqueCharacters_elem in Hc.
    rewrite <- Hid. by apply (list_elem_of_fmap_2 id).
  - intros c Hc Hin. apply uniqueCharacters_elem in Hc.
    destruct (lastWithId_is_Some _ _ Hin) as [x Hx].
    rewrite (lastWithId_app _ all _ _ Hx) in Hc. congruence.
Qed.

Lemma merge_unique_later_wins_witness :
  inFlight waiting = Some (mkRequest 1 1%nat) ∧
  heap waiting !! req_allCharacters (mkRequest 1 1%nat) = Some [rick; morty] ∧
  [mkCharacter 2 "Morty" "Dead" ""; summer] ≠ [] ∧
  ∃ st' merged,
    loadMoreCharacters_resume (Body (Some [mkCharacter 2 "Morty" "Dead" ""; summer])) waiting
      = Some st' ∧
    heap st' !! allCharacters st' = Some merged ∧
    NoDup (List.map id merged) ∧
    (∀ r, r ∈ [mkCharacter 2 "Morty" "Dead" ""; summer] → id r ∈ List.map id merged) ∧
    (∀ c, c ∈ merged → id c ∈ List.map id [mkCharacter 2 "Morty" "Dead" ""; summer] →
          lastWithId (id c) [mkCharacter 2 "Morty" "Dead" ""; summer] = Some c).
Proof.
  split; [reflexivity|]. split; [reflexivity|]. split; [discriminate|].
  apply (merge_unique_later_wins waiting (mkRequest 1 1%nat) [rick; morty]);
    [reflexivity | reflexivity | discriminate].
Defined.

Lemma resume_returns st req r :
  inFlight st = Some req →
  is_Some (heap st !! req_allCharacters req) →
  ∃ st', loadMoreCharacters_resume r st = Some st' ∧
         loadingMore st' = false ∧ inFlight st' = None.
Proof.
  intros Hreq [all Hall]. destruct r as [error|[results|]].
  - rewrite loadMoreCharacters_resume_unfold. rewrite Hreq. by eexists.
  - destruct (decide (results = [])) as [->|Hne].
    + rewrite loadMoreCharacters_resume_unfold. rewrite Hreq. by eexists.
    + destruct (resume_page st req all results Hreq Hall Hne) as (r & _ & ->). by eexists.
  - rewrite loadMoreCharacters_resume_unfold. rewrite Hreq. by eexists.
Qed.

(** C4. When the awaited fetch fails (the request or the parsing of the body
    is rejected, or the body has no [results]), the continuation prints one
    line on the console and does nothing else: cursor, has-more flag, published
    collection and store are as before. On every path (page, empty page,
    failure) the continuation returns with the in-flight flag cleared. *)
Theorem resume_failure_atomic st req :
  inFlight st = Some req →
  is_Some (heap st !! req_allCharacters req) →
  (∀ r, failed r = true →
     ∃ error, loadMoreCharacters_resume r st
              = Some (setInFlight None (setLoadingMore false (console_error logMessage error st)))) ∧
  (∀ r st', failed r = true → loadMoreCharacters_resume r st = Some st' →
     page st' = page st ∧ hasMore st' = hasMore st ∧
     allCharacters st' = allCharacters st ∧ heap st' = heap st ∧
     filteredCharacters st' = filteredCharacters st ∧ network st' = network st ∧
     length (console st') = S (length (console st))) ∧
  (∀ r, ∃ st', loadMoreCharacters_resume r st = Some st' ∧ loadingMore st' = false).
Proof.
  intros Hreq Hall. split; [|split].
  - intros [error|[results|]] Hr; try done; rewrite loadMoreCharacters_resume_unfold;
      rewrite Hreq; by eexists.
  - intros [error|[results|]] st' Hr; try done; rewrite loadMoreCharacters_resume_unfold;
      rewrite Hreq; simpl; intros [= <-]; simpl; rewrite length_app; simpl;
      repeat split; lia.
  - intros r. destruct (resume_returns st req r Hreq Hall) as (st' & ? & ? & _). eauto.
Qed.

Lemma resume_failure_atomic_witness :
  inFlight waiting = Some (mkRequest 1 1%nat) ∧
  is_Some (heap waiting !! req_allCharacters (mkRequest 1 1%nat)) ∧
  ∃ st', loadMoreCharacters_resume (Rejected "Network request failed") waiting = Some st' ∧
         loadingMore st' = false.
Proof.
  split; [reflexivity|]. split; [by eexists|].
  apply (resume_failure_atomic waiting (mkRequest 1 1%nat)); [reflexivity | by eexists].
Defined.

(** For the handler of the latest render: with a fetch in flight, or with
    has-more false, a call of [loadMoreCharacters] returns the state it was
    given, the list of requests sent included; so a call made after the
    component has rendered the loading flag adds nothing to what the waiting
    call does when its response arrives. *)
Theorem loadMore_guarded_noop st :
  loadingMore st = true ∨ hasMore st = false →
  loadMoreCharacters st = st ∧
  network (loadMoreCharacters st) = network st ∧
  ∀ r, run [EndReached; Fetched r] st = run [Fetched r] st.
Proof.
  intros H.
  assert (loadMoreCharacters st = st) as Hst.
  { rewrite !loadMoreCharacters_unfold. by destruct H as [-> | ->]; [|rewrite orb_true_r]. }
  split; [done|]. split; [by rewrite Hst|]. intros r. simpl. by rewrite Hst.
Qed.

Lemma loadMore_guarded_noop_witness :
  (loadingMore waiting = true ∨ hasMore waiting = false) ∧
  loadMoreCharacters waiting = waiting.
Proof.
  split; [by left|].
  apply (loadMore_guarded_noop waiting). by left.
Defined.

(** The guard reads the constants of the render that made the handler: a
    handler whose render saw a fetch in flight, or has-more false, does nothing,
    whatever the state is by now; any other handler sends its request, whatever
    the state is by now. *)
Lemma loadMoreCharacters_of_guard seen st :
  (seen_loadingMore seen = true ∨ seen_hasMore seen = false →
   loadMoreCharacters_of seen st = st) ∧
  (seen_loadingMore seen = false → seen_hasMore seen = true →
   network (loadMoreCharacters_of seen st) = network st ++ [seen_page seen]).
Proof.
  unfold loadMoreCharacters_of. split.
  - by intros [-> | ->]; [|rewrite orb_true_r].
  - by intros -> ->.
Qed.

(** C5 (the code departs from it). The list calls the handler of the first
    render twice before the component renders again. The first call raises the
    loading flag and asks for page 1; the second call, whose guard reads the
    flag as the first render saw it, asks for page 1 again; and when both
    responses have arrived the cursor stands at page 3. *)
Theorem second_call_of_one_render_fetches :
  let seen := closureOf firstRender in
  let req := mkRequest 1 1%nat in
  seen_loadingMore seen = false ∧ seen_hasMore seen = true ∧
  loadingMore (loadMoreCharacters_of seen firstRender) = true ∧
  network (loadMoreCharacters_of seen firstRender) = [1] ∧
  network (loadMoreCharacters_of seen (loadMoreCharacters_of seen firstRender)) = [1; 1] ∧
  ∃ st,
    fireAll [CallFrom seen; CallFrom seen;
             Answer req (Body (Some [summer])); Answer req (Body (Some [summer]))]
            firstRender = Some st ∧
    network st = [1; 1] ∧ page st = 3.
Proof.
  simpl. repeat (split; [reflexivity|]).
  eexists. split; [vm_compute; reflexivity|]. split; reflexivity.
Qed.

(** Two calls in a row, then the response: as one call, then the response. *)
Lemma second_call_adds_nothing st r :
  run [EndReached; EndReached; Fetched r] st = run [EndReached; Fetched r] st.
Proof.
  simpl. f_equal.
  assert (loadMoreCharacters (loadMoreCharacters st) = loadMoreCharacters st) as ->; [|done].
  rewrite (loadMoreCharacters_unfold st).
  destruct (loadingMore st || negb (hasMore st)) eqn:Hg.
  - rewrite !loadMoreCharacters_unfold. by rewrite Hg.
  - done.
Qed.

(** ** The has-more flag *)

Lemma onHeap_Some {A} (m : M A) st a st' :
  onHeap m st = Some (a, st') → ∃ h, m (heap st) = Some (a, h) ∧ st' = setHeap h st.
Proof.
  unfold onHeap. destruct (m (heap st)) as [[a' h]|]; [|done].
  intros [= <- <-]. by exists h.
Qed.





(** ** Overlays: claims *)

Lemma saveEdit_run updatedCharacter st collection :
  heap st !! characters st = Some collection →
  ∃ r, heap st !! r = None ∧
    saveEdit updatedCharacter st
    = Some (setIsEditModalVisible false (setCharacters r
        (setHeap (<[r := List.map (λ char, if id char =? id updatedCharacter
                                           then updatedCharacter else char) collection]>
                    (heap st)) st))).
Proof.
  intros Hc. unfold saveEdit, onHeap.
  destruct (Array_map_run (characters st)
              (λ char, if id char =? id updatedCharacter then updatedCharacter else char)
              (heap st) collection Hc) as (r & -> & Hr).
  by exists r.
Qed.

(** C7 as stated fails: after [saveEdit] in the state EditOpen the selection
    is still there, so the state is not Idle. *)
Lemma saveEdit_keeps_selection :
  EditOpen editingRick ∧
  ∃ st', saveEdit (mkCharacter 1 "Rick S." "Dead" "rick.jpeg") editingRick = Some st' ∧
         selectedCharacter st' = Some rick ∧ ¬ Idle st'.
Proof.
  split; [by repeat split; eexists|].
  eexists. split; [vm_compute; reflexivity|]. split; [reflexivity|].
  intros [H _]. discriminate.
Qed.

(** C7, amended. [saveEdit(updated)] in the state EditOpen publishes a
    collection of the same length in which every position holds [updated] if it
    held a record with the identifier of [updated], and the record it held
    otherwise; it hides the edit overlay, so that no overlay is visible; the
    selection is as before. *)
Theorem saveEdit_replaces updatedCharacter st collection :
  heap st !! characters st = Some collection →
  EditOpen st →
  ∃ st' updated,
    saveEdit updatedCharacter st = Some st' ∧
    heap st' !! characters st' = Some updated ∧
    length updated = length collection ∧
    (∀ i c, collection !! i = Some c →
       updated !! i = Some (if id c =? id updatedCharacter then updatedCharacter else c)) ∧
    isModalVisible st' = false ∧ isEditModalVisible st' = false ∧
    selectedCharacter st' = selectedCharacter st.
Proof.
  intros Hc (_ & Hmodal & _).
  destruct (saveEdit_run updatedCharacter st collection Hc) as (r & _ & ->).
  eexists _, _. split; [done|]. simpl. split; [by rewrite lookup_insert_eq|].
  split; [apply length_map|]. split; [|done].
  intros i c Hi. change (List.map ?f collection) with (f <$> collection).
  by rewrite list_lookup_fmap, Hi.
Qed.

Lemma saveEdit_replaces_witness :
  heap editingRick !! characters editingRick = Some [rick; morty; beth] ∧
  EditOpen editingRick ∧
  ∃ st' updated,
    saveEdit (mkCharacter 1 "Rick S." "Dead" "rick.jpeg") editingRick = Some st' ∧
    heap st' !! characters st' = Some updated ∧
    length updated = length [rick; morty; beth] ∧
    (∀ i c, [rick; morty; beth] !! i = Some c →
       updated !! i = Some (if id c =? 1 then mkCharacter 1 "Rick S." "Dead" "rick.jpeg" else c)) ∧
    isModalVisible st' = false ∧ isEditModalVisible st' = false ∧
    selectedCharacter st' = selectedCharacter editingRick.
Proof.
  split; [reflexivity|]. split; [by repeat split; eexists|].
  apply (saveEdit_replaces (mkCharacter 1 "Rick S." "Dead" "rick.jpeg") editingRick
           [rick; morty; beth]); [reflexivity | by repeat split; eexists].
Defined.

(** C8 as stated fails: after [handleDelete] and the answer [Cancelar] the
    detail overlay, which was visible, is hidden. *)
Lemma handleDelete_cancel_hides_detail :
  DetailOpen detailOnRick ∧
  isModalVisible detailOnRick = true ∧
  isModalVisible (alertCancel (handleDelete 1 detailOnRick)) = false ∧
  alertCancel (handleDelete 1 detailOnRick) ≠ detailOnRick.
Proof.
  split; [by repeat split; eexists|]. split; [reflexivity|]. split; [reflexivity|].
  intros H. apply (f_equal isModalVisible) in H. discriminate.
Qed.

(** C8, amended. [handleDelete(id)] puts the confirmation dialog on screen and
    hides the detail overlay at once. On [Cancelar] nothing else changes. On
    [Excluir] the collection published to the parent is the collection without
    the records with that identifier, the others in their order; the edit
    overlay and the selection are as before. *)
Theorem handleDelete_answers i st collection :
  heap st !! characters st = Some collection →
  isModalVisible (handleDelete i st) = false ∧
  alert (handleDelete i st) = Some (mkPrompt i (characters st)) ∧
  alertCancel (handleDelete i st) = setAlert None (setIsModalVisible false st) ∧
  ∃ st' remaining,
    alertConfirm (handleDelete i st) = Some st' ∧
    heap st' !! characters st' = Some remaining ∧
    remaining = List.filter (λ character, negb (id character =? i)) collection ∧
    (∀ c, c ∈ remaining ↔ c ∈ collection ∧ id c ≠ i) ∧
    isModalVisible st' = false ∧
    isEditModalVisible st' = isEditModalVisible st ∧
    selectedCharacter st' = selectedCharacter st.
Proof.
  intros Hc. split; [done|]. split; [done|]. split; [done|].
  unfold alertConfirm, onHeap. simpl.
  destruct (Array_filter_run (characters st) (λ character, negb (id character =? i))
              (heap st) collection Hc) as (r & -> & Hr).
  eexists _, _. split; [done|]. simpl. split; [by rewrite lookup_insert_eq|].
  split; [done|]. split; [|done].
  intros c. rewrite !list_elem_of_In, filter_In, negb_true_iff, Z.eqb_neq. done.
Qed.

Lemma handleDelete_answers_witness :
  heap detailOnRick !! characters detailOnRick = Some [rick; morty; beth] ∧
  ∃ st' remaining,
    alertConfirm (handleDelete 1 detailOnRick) = Some st' ∧
    heap st' !! characters st' = Some remaining ∧
    remaining = List.filter (λ character, negb (id character =? 1)) [rick; morty; beth] ∧
    (∀ c, c ∈ remaining ↔ c ∈ [rick; morty; beth] ∧ id c ≠ 1) ∧
    isModalVisible st' = false ∧
    isEditModalVisible st' = isEditModalVisible detailOnRick ∧
    selectedCharacter st' = selectedCharacter detailOnRick.
Proof.
  split; [reflexivity|].
  apply (handleDelete_answers 1 detailOnRick [rick; morty; beth]). reflexivity.
Defined.

(** ** Positions: claim *)

Lemma foldl_set_keys es : ∀ acc,
  List.map fst (foldl (λ m e, Map_set e.1 e.2 m) acc es)
  = List.map fst acc ++ firstOccurrences (List.map fst acc) (List.map fst es).
Proof.
  induction es as [|[k v] es IH]; intros acc; simpl; [by rewrite app_nil_r|].
  rewrite IH, Map_set_keys.
  destruct (decide (k ∈ List.map fst acc)); [done|]. by rewrite <- app_assoc.
Qed.

Lemma uniqueCharacters_alone_ids page :
  List.map id (uniqueCharacters [] page) = firstOccurrences [] (List.map id page).
Proof.
  rewrite uniqueCharacters_ids. simpl. unfold Map_new. rewrite foldl_set_keys. simpl.
  unfold entries. by rewrite List.map_map.
Qed.

(** Distinct identifiers in the existing collection are needed for that: with
    two records under one identifier the merge keeps one of them and the
    records after it move up. *)
Lemma merge_moves_records :
  ¬ keeps_positions [rick; mkCharacter 1 "Rick Prime" "Alive" ""; morty] [summer].
Proof.
  intros H. specialize (H 2%nat morty eq_refl). vm_compute in H. discriminate.
Qed.

(** C10. For an existing collection with pairwise distinct identifiers, as the
    data model has them and as every merge publishes them, and any page: every
    position of the collection holds after the
    merge the last record of the page with the identifier it held, or the
    record it held when the page has none; after these positions come the
    records of the page with new identifiers, each identifier once, in the
    order of first appearance, each with the record the page has last for it;
    for a page with pairwise distinct identifiers these are the new records of
    the page as they stand in it. *)
Theorem merge_keeps_positions all page :
  NoDup (List.map id all) →
  keeps_positions all page ∧
  List.map id (drop (length all) (uniqueCharacters all page))
    = firstOccurrences [] (List.map id (List.filter (isNew all) page)) ∧
  (∀ c, c ∈ drop (length all) (uniqueCharacters all page) →
        isNew all c = true ∧ lastWithId (id c) page = Some c) ∧
  (NoDup (List.map id page) →
     drop (length all) (uniqueCharacters all page) = List.filter (isNew all) page).
Proof.
  intros Hall.
  assert (length (List.map (refreshed page) all) = length all) as Hlen by apply length_map.
  assert (drop (length all) (uniqueCharacters all page)
          = uniqueCharacters [] (List.filter (isNew all) page)) as ->.
  { rewrite (uniqueCharacters_split all page Hall), <- Hlen. apply drop_app_length. }
  split; [|split; [|split]].
  - intros i c Hi. rewrite (uniqueCharacters_split all page Hall).
    rewrite lookup_app_l by (rewrite Hlen; by eapply lookup_lt_Some).
    change (List.map ?f all) with (f <$> all). by rewrite list_lookup_fmap, Hi.
  - apply uniqueCharacters_alone_ids.
  - intros c Hc. apply uniqueCharacters_elem in Hc. simpl in Hc.
    apply lastWithId_Some in Hc as Hin. destruct Hin as [_ Hin].
    apply list_elem_of_In, filter_In in Hin as [_ Hnew]. split; [done|].
    rewrite <- Hc. symmetry. apply lastWithId_filter.
    intros x Hx. unfold isNew in *. by rewrite Hx.
  - intros Hpage. apply uniqueCharacters_alone. by apply filter_distinct.
Qed.

Lemma merge_keeps_positions_witness :
  NoDup (List.map id [rick; morty]) ∧
  keeps_positions [rick; morty] [mkCharacter 2 "Morty" "Dead" ""; summer] ∧
  drop (length [rick; morty])
       (uniqueCharacters [rick; morty] [mkCharacter 2 "Morty" "Dead" ""; summer])
  = [summer].
Proof.
  assert (NoDup (List.map id [rick; morty])) as H
    by (apply (bool_decide_unpack (NoDup (List.map id [rick; morty]))); reflexivity).
  split; [exact H|].
  destruct (merge_keeps_positions [rick; morty] [mkCharacter 2 "Morty" "Dead" ""; summer] H)
    as (Hpos & _ & _ & _).
  split; [exact Hpos | reflexivity].
Defined.

(** ** The handlers never meet a reference the store does not hold *)

Lemma insert_is_Some (h : gmap nat (list Character)) r v l :
  is_Some (h !! l) → is_Some (<[r := v]> h !! l).
Proof.
  intros H. destruct (decide (r = l)) as [->|Hne].
  - rewrite lookup_insert_eq. by eexists.
  - by rewrite lookup_insert_ne.
Qed.

Lemma initialState_wf characters allCharacters searchTerm filter sortOrder :
  wf (initialState characters allCharacters searchTerm filter sortOrder).
Proof.
  unfold wf. simpl. split; [by exists characters|]. split; [by exists allCharacters|].
  split; [by exists []|]. done.
Qed.

Lemma step_wf e st : wf st → ∃ st', step e st = Some st' ∧ wf st'.
Proof.
  intros (Hc & Ha & Hf & Hreq & Hp). destruct e; simpl.
  - eexists. split; [done|]. rewrite !loadMoreCharacters_unfold.
    destruct (loadingMore st || negb (hasMore st)); [done|].
    unfold wf. simpl. repeat split; try done. by intros req [= <-].
  - rewrite loadMoreCharacters_resume_unfold. destruct (inFlight st) as [req|] eqn:Hin.
    2:{ eexists. split; [done|]. unfold wf. rewrite Hin. done. }
    destruct r as [error|[results|]].
    + eexists. split; [done|]. unfold wf. simpl. done.
    + destruct (decide (results = [])) as [->|Hne].
      * eexists. split; [done|]. unfold wf. simpl. done.
      * destruct (Hreq req eq_refl) as [all Hall].
        pose proof (resume_page st req all results Hin Hall Hne) as (r & Hr & Heq).
        rewrite loadMoreCharacters_resume_unfold in Heq. rewrite Hin in Heq. rewrite Heq.
        eexists. split; [done|]. unfold wf. simpl.
        repeat split; try (by apply insert_is_Some); try done;
          try (rewrite lookup_insert_eq; by eexists).
        intros p Hal. by apply insert_is_Some, Hp.
    + eexists. split; [done|]. unfold wf. simpl. done.
  - destruct Hc as [v Hv]. unfold filterEffect, onHeap.
    destruct (pipeline_run (heap st) (characters st) v (filter st) (searchTerm st)
                (sortOrder st) Hv) as (r & h' & -> & Hview & Hframe & _).
    eexists. split; [done|].
    assert (∀ l, is_Some (heap st !! l) → is_Some (h' !! l)) as Hmono.
    { intros l [x Hx]. destruct (decide (l = r)) as [->|Hne]; [by eexists|].
      exists x. by apply Hframe. }
    unfold wf. simpl. repeat split; try (by apply Hmono); try (by eexists).
    + intros req Hin. by apply Hmono, Hreq.
    + intros p Hal. by apply Hmono, Hp.
  - eexists. split; [done|]. unfold wf. simpl. done.
  - eexists. split; [done|]. unfold wf. simpl. done.
  - eexists. split; [done|]. unfold wf. simpl. repeat split; try done. by intros p [= <-].
  - eexists. split; [done|]. unfold wf. simpl. done.
  - unfold alertConfirm. destruct (alert st) as [p|] eqn:Hal.
    2:{ eexists. split; [done|]. unfold wf. rewrite Hal. done. }
    destruct (Hp p eq_refl) as [v Hv]. unfold onHeap.
    destruct (Array_filter_run (prompt_characters p)
                (λ character, negb (id character =? prompt_id p)) (heap st) v Hv)
      as (r & -> & Hr).
    eexists. split; [done|]. unfold wf. simpl.
    repeat split; try (by apply insert_is_Some); try done;
      try (rewrite lookup_insert_eq; by eexists).
    intros req Hin. by apply insert_is_Some, Hreq.
  - eexists. split; [done|]. unfold wf. simpl. done.
  - destruct Hc as [v Hv].
    destruct (saveEdit_run updatedCharacter st v Hv) as (r & Hr & ->).
    eexists. split; [done|]. unfold wf. simpl.
    repeat split; try (by apply insert_is_Some); try done;
      try (rewrite lookup_insert_eq; by eexists).
    + intros req Hin. by apply insert_is_Some, Hreq.
    + intros p Hal. by apply insert_is_Some, Hp.
  - eexists. split; [done|]. unfold wf. simpl. done.
Qed.

(** Every sequence of events runs to a state, from the first render on. *)
Lemma run_returns es : ∀ st, wf st → ∃ st', run es st = Some st' ∧ wf st'.
Proof.
  induction es as [|e es IH]; simpl; intros st Hwf; [by exists st|].
  destruct (step_wf e st Hwf) as (st1 & -> & Hwf1). by apply IH.
Qed.

(** The effect publishes the view of the current props as the component's
    [filteredCharacters]. *)
Lemma filterEffect_view st collection :
  heap st !! characters st = Some collection →
  ∃ st', filterEffect st = Some st' ∧
         heap st' !! filteredCharacters st'
         = Some (viewOf collection (filter st) (searchTerm st) (sortOrder st)).
Proof.
  intros Hc. unfold filterEffect, onHeap.
  destruct (pipeline_run (heap st) (characters st) collection (filter st) (searchTerm st)
              (sortOrder st) Hc) as (r & h' & -> & Hview & _).
  by eexists.
Qed.

(** * Further properties of the code *)

(** ** The pipeline: order of ties, aliasing, narrowing *)

Section stability.

Context {A : Type} (cmp : A → A → Z) (p : A → bool).

(** Elements that [p] selects do not compare greater than one another. *)
Hypothesis p_ties : ∀ x y, p x = true → p y = true → cmp x y ≤ 0.

Lemma sortInsert_filter x l :
  List.filter p (sortInsert cmp x l) = List.filter p (x :: l).
Proof.
  induction l as [|y l IH]; [done|]. simpl sortInsert.
  destruct (Z.leb_spec (cmp x y) 0) as [Hxy|Hxy]; [done|].
  simpl in *. destruct (p y) eqn:Hy.
  - rewrite IH. destruct (p x) eqn:Hx; [|done].
    pose proof (p_ties x y Hx Hy). lia.
  - exact IH.
Qed.

Lemma sorted_copy_filter l :
  List.filter p (sorted_copy cmp l) = List.filter p l.
Proof.
  induction l as [|x l IH]; [done|]. simpl sorted_copy. fold (sorted_copy cmp l).
  rewrite sortInsert_filter. simpl. by rewrite IH.
Qed.

End stability.

Lemma compareFn_same_name sortOrder a b :
  name a = name b → compareFn sortOrder a b = 0.
Proof. intros H. unfold compareFn. by rewrite H, lt_irrefl. Qed.

(** The sort is stable: in the view, the records that share a name stand in
    the order in which the collection has them. *)
Theorem pipeline_stable (h : gmap nat (list Character)) characters collection
    filter searchTerm sortOrder :
  h !! characters = Some collection →
  ∃ r h' view,
    getFilteredAndSortedCharacters characters filter searchTerm sortOrder h = Some (r, h') ∧
    h' !! r = Some view ∧
    ∀ n, List.filter (λ c, String.eqb (name c) n) view
         = List.filter (λ c, String.eqb (name c) n)
             (searchStep searchTerm (statusStep filter collection)).
Proof.
  intros Hc.
  destruct (pipeline_run h characters collection filter searchTerm sortOrder Hc)
    as (r & h' & Hrun & Hview & _).
  exists r, h', (viewOf collection filter searchTerm sortOrder).
  split; [done|]. split; [done|]. intros n. unfold viewOf.
  apply sorted_copy_filter. intros x y Hx%String.eqb_eq Hy%String.eqb_eq.
  rewrite compareFn_same_name; [done | congruence].
Qed.

Lemma pipeline_stable_witness :
  ({[ 0%nat := [mkCharacter 7 "Rick" "Dead" ""; beth; mkCharacter 8 "Rick" "Alive" ""] ]}
     : gmap nat (list Character)) !! 0%nat
  = Some [mkCharacter 7 "Rick" "Dead" ""; beth; mkCharacter 8 "Rick" "Alive" ""] ∧
  ∃ r h' view,
    getFilteredAndSortedCharacters 0%nat "All" "" desc
      {[ 0%nat := [mkCharacter 7 "Rick" "Dead" ""; beth; mkCharacter 8 "Rick" "Alive" ""] ]}
      = Some (r, h') ∧
    h' !! r = Some view ∧
    ∀ n, List.filter (λ c, String.eqb (name c) n) view
         = List.filter (λ c, String.eqb (name c) n)
             (searchStep "" (statusStep "All"
                [mkCharacter 7 "Rick" "Dead" ""; beth; mkCharacter 8 "Rick" "Alive" ""])).
Proof.
  split; [reflexivity|].
  apply (pipeline_stable _ 0%nat
           [mkCharacter 7 "Rick" "Dead" ""; beth; mkCharacter 8 "Rick" "Alive" ""]
           "All" "" desc).
  reflexivity.
Defined.

(** With a status filter or a search term, the pipeline returns an array that
    the store did not hold and leaves every array of the store, the one of the
    props included, with the elements it had. *)
Theorem pipeline_filtering_copies (h : gmap nat (list Character)) characters collection
    filter searchTerm sortOrder :
  h !! characters = Some collection →
  copies filter searchTerm = true →
  ∃ r h',
    getFilteredAndSortedCharacters characters filter searchTerm sortOrder h = Some (r, h') ∧
    h !! r = None ∧ r ≠ characters ∧
    h' !! characters = Some collection ∧
    ∀ l x, h !! l = Some x → h' !! l = Some x.
Proof.
  intros Hc Hcopy.
  destruct (pipeline_run h characters collection filter searchTerm sortOrder Hc)
    as (r & h' & Hrun & _ & Hframe & Hr).
  rewrite Hcopy in Hr. exists r, h'. split; [done|]. split; [done|].
  assert (r ≠ characters) as Hne by congruence.
  split; [done|]. split; [by apply Hframe|].
  intros l x Hl. apply Hframe; [|done]. intros Heq. subst l.
  by pose proof (eq_trans (eq_sym Hl) Hr).
Qed.

Lemma pipeline_filtering_copies_witness :
  sampleHeap !! 0%nat = Some [rick; morty; beth] ∧
  copies "Alive" "" = true ∧
  ∃ r h',
    getFilteredAndSortedCharacters 0%nat "Alive" "" asc sampleHeap = Some (r, h') ∧
    sampleHeap !! r = None ∧ r ≠ 0%nat ∧
    h' !! 0%nat = Some [rick; morty; beth] ∧
    ∀ l x, sampleHeap !! l = Some x → h' !! l = Some x.
Proof.
  split; [reflexivity|]. split; [reflexivity|].
  apply (pipeline_filtering_copies sampleHeap 0%nat [rick; morty; beth] "Alive" "" asc);
    reflexivity.
Defined.

(** With the filter "All" and no search term, the pipeline returns the array
    of the props itself: the store differs in that array alone, which holds the
    same records, none lost or added, in the order of their names. *)
Theorem pipeline_unfiltered_aliases (h : gmap nat (list Character)) characters collection
    sortOrder :
  h !! characters = Some collection →
  ∃ view,
    getFilteredAndSortedCharacters characters "All" "" sortOrder h
      = Some (characters, <[characters := view]> h) ∧
    view ≡ₚ collection ∧
    length view = length collection ∧
    StronglySorted (Spec.in_order sortOrder) view.
Proof.
  intros Hc. exists (sorted_copy (compareFn sortOrder) collection).
  split; [by apply pipeline_in_place|].
  split; [apply sorted_copy_perm|].
  split; [by rewrite sorted_copy_perm | apply sorted_copy_in_order].
Qed.

Lemma pipeline_unfiltered_aliases_witness :
  sampleHeap !! 0%nat = Some [rick; morty; beth] ∧
  ∃ view,
    getFilteredAndSortedCharacters 0%nat "All" "" desc sampleHeap
      = Some (0%nat, <[0%nat := view]> sampleHeap) ∧
    view ≡ₚ [rick; morty; beth] ∧
    length view = length [rick; morty; beth] ∧
    StronglySorted (Spec.in_order desc) view.
Proof.
  split; [reflexivity|].
  apply (pipeline_unfiltered_aliases sampleHeap 0%nat [rick; morty; beth] desc).
  reflexivity.
Defined.

Lemma string_app_assoc (a b c : string) : a +:+ (b +:+ c) = (a +:+ b) +:+ c.
Proof.
  induction a as [|x a IH]; [done|].
  change (String x (a +:+ (b +:+ c)) = String x ((a +:+ b) +:+ c)). by rewrite IH.
Qed.

Lemma toLowerCase_app (a b : string) :
  JsString.toLowerCase (a +:+ b) = JsString.toLowerCase a +:+ JsString.toLowerCase b.
Proof.
  induction a as [|x a IH]; [done|].
  change (String (JsString.lowerUnit x) (JsString.toLowerCase (a +:+ b))
          = String (JsString.lowerUnit x) (JsString.toLowerCase a +:+ JsString.toLowerCase b)).
  by rewrite IH.
Qed.

Lemma contains_trans s t u : Spec.contains s t → Spec.contains t u → Spec.contains s u.
Proof.
  intros (p1 & q1 & ->) (p2 & q2 & ->). exists (p1 +:+ p2), (q2 +:+ q1).
  by rewrite !string_app_assoc.
Qed.

Lemma contains_lower s t :
  Spec.contains s t → Spec.contains (JsString.toLowerCase s) (JsString.toLowerCase t).
Proof.
  intros (p & q & ->). exists (JsString.toLowerCase p), (JsString.toLowerCase q).
  by rewrite !toLowerCase_app.
Qed.

Lemma contains_empty t : Spec.contains "" t → t = "".
Proof.
  intros (p & q & H). destruct p as [|x p]; [|discriminate].
  destruct t as [|y t]; [done | discriminate].
Qed.

Lemma searchStep_narrows t t' v c :
  Spec.contains t' t → c ∈ searchStep t' v → c ∈ searchStep t v.
Proof.
  intros Hsub. unfold searchStep.
  destruct (JsString.truthy t') eqn:Ht'.
  - intros [Hin Hm]%list_elem_of_In%filter_In.
    destruct (JsString.truthy t); [|by apply list_elem_of_In].
    apply list_elem_of_In, filter_In. split; [done|].
    unfold nameMatches in *. apply includes_spec. apply includes_spec in Hm.
    eapply contains_trans; [exact Hm|]. by apply contains_lower.
  - destruct t' as [|? ?]; [|done]. by rewrite (contains_empty t Hsub).
Qed.

(** For names and search terms of code units below 256, which
    [toLowerCase] maps one by one: typing more into the search box never brings
    a record back. When the old term occurs in the new one, every record of the
    new view is in the old view. *)
Theorem search_narrows (h : gmap nat (list Character)) characters collection
    filter searchTerm searchTerm' sortOrder :
  h !! characters = Some collection →
  Spec.contains searchTerm' searchTerm →
  ∃ r h1 view r' h2 view',
    getFilteredAndSortedCharacters characters filter searchTerm sortOrder h = Some (r, h1) ∧
    h1 !! r = Some view ∧
    getFilteredAndSortedCharacters characters filter searchTerm' sortOrder h = Some (r', h2) ∧
    h2 !! r' = Some view' ∧
    ∀ c, c ∈ view' → c ∈ view.
Proof.
  intros Hc Hsub.
  destruct (pipeline_run h characters collection filter searchTerm sortOrder Hc)
    as (r & h1 & Hrun & Hview & _).
  destruct (pipeline_run h characters collection filter searchTerm' sortOrder Hc)
    as (r' & h2 & Hrun' & Hview' & _).
  eexists r, h1, _, r', h2, _. repeat (split; [done|]).
  intros c. unfold viewOf. rewrite !sorted_copy_perm. by apply searchStep_narrows.
Qed.

Lemma search_narrows_witness :
  sampleHeap !! 0%nat = Some [rick; morty; beth] ∧
  Spec.contains "Smith" "mi" ∧
  ∃ r h1 view r' h2 view',
    getFilteredAndSortedCharacters 0%nat "All" "mi" asc sampleHeap = Some (r, h1) ∧
    h1 !! r = Some view ∧
    getFilteredAndSortedCharacters 0%nat "All" "Smith" asc sampleHeap = Some (r', h2) ∧
    h2 !! r' = Some view' ∧
    ∀ c, c ∈ view' → c ∈ view.
Proof.
  assert (Spec.contains "Smith" "mi") as H by (by exists "S", "th").
  split; [reflexivity|]. split; [exact H|].
  apply (search_narrows sampleHeap 0%nat [rick; morty; beth] "All" "mi" "Smith" asc);
    [reflexivity | exact H].
Defined.

Lemma StronglySorted_rev {A} (R : A → A → Prop) l :
  StronglySorted R l → StronglySorted (flip R) (rev l).
Proof.
  induction 1 as [|x l Hl IH Hx]; simpl; [constructor|].
  apply StronglySorted_app_2; [|done|by repeat constructor].
  intros a b Ha ->%list_elem_of_singleton. unfold flip.
  rewrite Forall_forall in Hx. apply Hx. by apply list_elem_of_In, in_rev, list_elem_of_In.
Qed.

Lemma NoDup_map_eq {A B} (f : A → B) l a b :
  NoDup (List.map f l) → a ∈ l → b ∈ l → f a = f b → a = b.
Proof.
  induction l as [|x l IH]; simpl; [by intros _ ?%elem_of_nil|].
  intros [Hx Hl]%NoDup_cons [->|Ha]%elem_of_cons [->|Hb]%elem_of_cons Hf; auto.
  - destruct Hx. rewrite Hf. by apply (list_elem_of_fmap_2 f).
  - destruct Hx. rewrite <- Hf. by apply (list_elem_of_fmap_2 f).
Qed.

Lemma viewOf_elem c v filter searchTerm sortOrder :
  c ∈ viewOf v filter searchTerm sortOrder → c ∈ v.
Proof.
  unfold viewOf. rewrite sorted_copy_perm, steps_filter.
  intros [? _]%list_elem_of_In%filter_In. by apply list_elem_of_In.
Qed.

(** When no two records of the collection share a name, the descending view
    is the ascending view read backwards. *)
Theorem descending_is_reverse (h : gmap nat (list Character)) characters collection
    filter searchTerm :
  h !! characters = Some collection →
  NoDup (List.map name collection) →
  ∃ r h1 ascending r' h2 descending,
    getFilteredAndSortedCharacters characters filter searchTerm asc h = Some (r, h1) ∧
    h1 !! r = Some ascending ∧
    getFilteredAndSortedCharacters characters filter searchTerm desc h = Some (r', h2) ∧
    h2 !! r' = Some descending ∧
    descending = rev ascending.
Proof.
  intros Hc Hnames.
  destruct (pipeline_run h characters collection filter searchTerm asc Hc)
    as (r & h1 & Hrun & Hview & _).
  destruct (pipeline_run h characters collection filter searchTerm desc Hc)
    as (r' & h2 & Hrun' & Hview' & _).
  eexists r, h1, _, r', h2, _. repeat (split; [done|]).
  apply (StronglySorted_unique_strong (Spec.in_order desc)).
  - intros a b Ha Hb Hab Hba.
    apply viewOf_elem in Ha.
    apply list_elem_of_In, in_rev, list_elem_of_In, viewOf_elem in Hb.
    simpl in Hab, Hba. rewrite <- lt_spec in Hab, Hba.
    apply (NoDup_map_eq name collection); [done..|].
    destruct (lt_trichotomy (name a) (name b)) as [?|[?|?]]; done.
  - apply sorted_copy_in_order.
  - apply (StronglySorted_rev (Spec.in_order asc)), sorted_copy_in_order.
  - unfold viewOf. rewrite <- Permutation_rev, !sorted_copy_perm. done.
Qed.

Lemma descending_is_reverse_witness :
  sampleHeap !! 0%nat = Some [rick; morty; beth] ∧
  NoDup (List.map name [rick; morty; beth]) ∧
  ∃ r h1 ascending r' h2 descending,
    getFilteredAndSortedCharacters 0%nat "All" "smith" asc sampleHeap = Some (r, h1) ∧
    h1 !! r = Some ascending ∧
    getFilteredAndSortedCharacters 0%nat "All" "smith" desc sampleHeap = Some (r', h2) ∧
    h2 !! r' = Some descending ∧
    descending = rev ascending.
Proof.
  assert (NoDup (List.map name [rick; morty; beth])) as H
    by (apply (bool_decide_unpack (NoDup (List.map name [rick; morty; beth]))); reflexivity).
  split; [reflexivity|]. split; [exact H|].
  apply (descending_is_reverse sampleHeap 0%nat [rick; morty; beth] "All" "smith");
    [reflexivity | exact H].
Defined.

(** ** The merge: identifiers and repetition *)

Lemma uniqueCharacters_id_elem all page k :
  k ∈ List.map id (uniqueCharacters all page) ↔ k ∈ List.map id (all ++ page).
Proof.
  split.
  - intros (c & -> & Hc)%list_elem_of_fmap. apply uniqueCharacters_elem in Hc.
    apply lastWithId_Some in Hc as [_ Hin]. by apply (list_elem_of_fmap_2 id).
  - intros Hk. destruct (lastWithId_is_Some k (all ++ page) Hk) as [c Hc].
    apply lastWithId_Some in Hc as Hid. destruct Hid as [<- _].
    apply uniqueCharacters_elem in Hc. by apply (list_elem_of_fmap_2 id).
Qed.

(** The merge neither invents nor loses anything: its identifiers are those
    of the collection and of the page, each of its records is a record of the
    collection or of the page, and it has at most as many records as the two
    together. *)
Theorem merge_identifiers all page :
  (∀ k, k ∈ List.map id (uniqueCharacters all page)
        ↔ k ∈ List.map id all ∨ k ∈ List.map id page) ∧
  (∀ c, c ∈ uniqueCharacters all page → c ∈ all ∨ c ∈ page) ∧
  (length (uniqueCharacters all page) ≤ length all + length page)%nat.
Proof.
  split; [|split].
  - intros k. by rewrite uniqueCharacters_id_elem, map_app, elem_of_app.
  - intros c Hc%uniqueCharacters_elem. apply lastWithId_Some in Hc as [_ Hin].
    by apply elem_of_app in Hin.
  - rewrite <- length_app, <- (length_map id (uniqueCharacters all page)),
      <- (length_map id (all ++ page)).
    apply NoDup_incl_length; [apply NoDup_ListNoDup, uniqueCharacters_NoDup|].
    intros k Hk. by apply list_elem_of_In, uniqueCharacters_id_elem, list_elem_of_In.
Qed.

Lemma filter_none {A} (p : A → bool) l : (∀ x, x ∈ l → p x = false) → List.filter p l = [].
Proof.
  induction l as [|x l IH]; simpl; intros H; [done|].
  rewrite H by left. apply IH. intros y Hy. apply H. by right.
Qed.

(** Merging a page into a collection that has it already changes nothing. *)
Theorem merge_same_page_again all page :
  uniqueCharacters (uniqueCharacters all page) page = uniqueCharacters all page.
Proof.
  rewrite (uniqueCharacters_split (uniqueCharacters all page) page)
    by apply uniqueCharacters_NoDup.
  rewrite (filter_none (isNew _) page).
  - rewrite app_nil_r. etrans; [|apply List.map_id]. apply map_ext_in.
    intros c Hc%list_elem_of_In%uniqueCharacters_elem. unfold refreshed.
    destruct (lastWithId (id c) page) as [x|] eqn:Hx; [|done]. simpl.
    rewrite (lastWithId_app _ all _ _ Hx) in Hc. congruence.
  - intros r Hr. unfold isNew. apply bool_decide_eq_false_2. intros Hnot. apply Hnot.
    apply uniqueCharacters_id_elem. rewrite map_app, elem_of_app. right.
    by apply (list_elem_of_fmap_2 id).
Qed.

(** ** Pagination: what a page does, what it leaves alone *)

(** A page with records moves the cursor by one and leaves has-more as it is;
    the view and the hook then share one array, which holds the whole merge,
    neither filtered nor sorted; no request is sent and nothing is printed. *)
Theorem resume_page_publishes st req all results :
  inFlight st = Some req →
  heap st !! req_allCharacters req = Some all →
  results ≠ [] →
  ∃ st',
    loadMoreCharacters_resume (Body (Some results)) st = Some st' ∧
    page st' = page st + 1 ∧ hasMore st' = hasMore st ∧ loadingMore st' = false ∧
    filteredCharacters st' = allCharacters st' ∧
    heap st' !! filteredCharacters st' = Some (uniqueCharacters all results) ∧
    network st' = network st ∧ console st' = console st.
Proof.
  intros Hreq Hall Hne.
  destruct (resume_page st req all results Hreq Hall Hne) as (r & Hr & ->).
  eexists. split; [done|]. simpl. by rewrite lookup_insert_eq.
Qed.

Lemma resume_page_publishes_witness :
  inFlight waiting = Some (mkRequest 1 1%nat) ∧
  heap waiting !! req_allCharacters (mkRequest 1 1%nat) = Some [rick; morty] ∧
  [beth; summer] ≠ [] ∧
  ∃ st',
    loadMoreCharacters_resume (Body (Some [beth; summer])) waiting = Some st' ∧
    page st' = page waiting + 1 ∧ hasMore st' = hasMore waiting ∧ loadingMore st' = false ∧
    filteredCharacters st' = allCharacters st' ∧
    heap st' !! filteredCharacters st' = Some (uniqueCharacters [rick; morty] [beth; summer]) ∧
    network st' = network waiting ∧ console st' = console waiting.
Proof.
  split; [reflexivity|]. split; [reflexivity|]. split; [discriminate|].
  apply (resume_page_publishes waiting (mkRequest 1 1%nat) [rick; morty] [beth; summer]);
    [reflexivity | reflexivity | discriminate].
Defined.

Lemma read_then_new_Some (f : list Character → list Character) a
    (h : gmap nat (list Character)) r h' :
  (all <~ readArray a ;; newArray (f all)) h = Some (r, h') →
  ∃ all, h !! a = Some all ∧ h !! r = None ∧ h' = <[r := f all]> h.
Proof.
  unfold bind, readArray, newArray. destruct (h !! a) as [all|] eqn:Ha; [|done].
  intros [= <- <-]. exists all. split; [done|]. split; [apply fresh_unused | done].
Qed.

Lemma insert_fresh_keeps (h : gmap nat (list Character)) r v l x :
  h !! r = None → h !! l = Some x → <[r := v]> h !! l = Some x.
Proof.
  intros Hr Hl. rewrite lookup_insert_ne; [done|]. intros Heq. subst l.
  by pose proof (eq_trans (eq_sym Hl) Hr).
Qed.

Lemma step_keeps_overlays e st st' :
  paginates e = true →
  step e st = Some st' →
  characters st' = characters st ∧ searchTerm st' = searchTerm st ∧
  filter st' = filter st ∧ sortOrder st' = sortOrder st ∧
  selectedCharacter st' = selectedCharacter st ∧
  isModalVisible st' = isModalVisible st ∧
  isEditModalVisible st' = isEditModalVisible st ∧
  alert st' = alert st ∧
  ∀ l x, heap st !! l = Some x → heap st' !! l = Some x.
Proof.
  destruct e; try done; intros _; simpl.
  - intros [= <-]. rewrite !loadMoreCharacters_unfold.
    by destruct (loadingMore st || negb (hasMore st)).
  - rewrite loadMoreCharacters_resume_unfold. destruct (inFlight st) as [req|]; [|by intros [= <-]].
    destruct r as [error|[results|]]; [by intros [= <-]| |by intros [= <-]].
    unfold loadMoreCharacters_try.
    destruct (0 <? Z.of_nat (length results)); [|by intros [= <-]].
    destruct (onHeap _ st) as [[unique st1]|] eqn:Hheap; [|done].
    apply onHeap_Some in Hheap as (h & Hh & ->).
    apply (read_then_new_Some (λ all, uniqueCharacters all results)) in Hh
      as (all & _ & Hfresh & ->).
    intros [= <-]. simpl. repeat split; try done.
    intros l x Hl. by apply insert_fresh_keeps.
Qed.

(** The pagination never touches the props, the selection, the overlays or
    the dialog, and never changes the elements of an array of the store. *)
Theorem pagination_frame e st st' :
  paginates e = true →
  step e st = Some st' →
  characters st' = characters st ∧ searchTerm st' = searchTerm st ∧
  filter st' = filter st ∧ sortOrder st' = sortOrder st ∧
  selectedCharacter st' = selectedCharacter st ∧
  isModalVisible st' = isModalVisible st ∧
  isEditModalVisible st' = isEditModalVisible st ∧
  alert st' = alert st ∧
  ∀ l x, heap st !! l = Some x → heap st' !! l = Some x.
Proof. apply step_keeps_overlays. Qed.

Lemma pagination_frame_witness :
  paginates (Fetched (Body (Some [summer]))) = true ∧
  ∃ st', step (Fetched (Body (Some [summer]))) waiting = Some st' ∧
         characters st' = characters waiting ∧
         selectedCharacter st' = selectedCharacter waiting.
Proof.
  split; [reflexivity|]. eexists. split; [vm_compute; reflexivity|].
  destruct (pagination_frame (Fetched (Body (Some [summer]))) waiting _ eq_refl eq_refl)
    as (H1 & _ & _ & _ & H2 & _).
  split; [exact H1 | exact H2].
Defined.

Lemma step_keeps_pagination e st st' :
  paginates e = false →
  step e st = Some st' →
  page st' = page st ∧ hasMore st' = hasMore st ∧ loadingMore st' = loadingMore st ∧
  inFlight st' = inFlight st ∧ allCharacters st' = allCharacters st ∧
  network st' = network st ∧ console st' = console st.
Proof.
  destruct e; try done; intros _; simpl; try (by intros [= <-]).
  - unfold filterEffect. destruct (onHeap _ st) as [[view st1]|] eqn:Hheap; [|done].
    apply onHeap_Some in Hheap as (h & _ & ->). by intros [= <-].
  - unfold alertConfirm. destruct (alert st) as [p|]; [|by intros [= <-]].
    destruct (onHeap _ st) as [[updated st1]|] eqn:Hheap; [|done].
    apply onHeap_Some in Hheap as (h & _ & ->). by intros [= <-].
  - unfold saveEdit. destruct (onHeap _ st) as [[updated st1]|] eqn:Hheap; [|done].
    apply onHeap_Some in Hheap as (h & _ & ->). by intros [= <-].
Qed.

(** The overlays, the dialog and the effect never touch the cursor, the two
    pagination flags, the call that waits, the requests sent or the console,
    and the hook's collection stays the array it was, with the elements it had;
    the one exception for the elements is the effect without filter and search
    term when the hook and the props share one array, which it sorts. *)
Theorem overlay_frame e st st' :
  paginates e = false →
  step e st = Some st' →
  page st' = page st ∧ hasMore st' = hasMore st ∧ loadingMore st' = loadingMore st ∧
  inFlight st' = inFlight st ∧ allCharacters st' = allCharacters st ∧
  network st' = network st ∧ console st' = console st ∧
  ∀ x, heap st !! allCharacters st = Some x →
       (e = Effect → copies (filter st) (searchTerm st) = false →
        allCharacters st ≠ characters st) →
       heap st' !! allCharacters st' = Some x.
Proof.
  intros He Hstep.
  destruct (step_keeps_pagination e st st' He Hstep) as (Hp & Hm & Hl & Hi & Ha & Hn & Hc).
  repeat (split; [done|]). rewrite Ha. clear Hp Hm Hl Hi Ha Hn Hc.
  intros x Hx Halias.
  destruct e; try done; simpl in Hstep; try (by injection Hstep as <-).
  - unfold filterEffect, onHeap in Hstep.
    destruct (heap st !! characters st) as [v|] eqn:Hv.
    2:{ unfold getFilteredAndSortedCharacters in Hstep.
        destruct (negb (String.eqb (filter st) "All")), (JsString.truthy (searchTerm st));
          cbv [bind ret Array_filter Array_sort readArray] in Hstep;
          by rewrite Hv in Hstep. }
    destruct (pipeline_run (heap st) (characters st) v (filter st) (searchTerm st)
                (sortOrder st) Hv) as (r & h' & Hrun & _ & Hframe & Hr).
    rewrite Hrun in Hstep. injection Hstep as <-. simpl.
    apply Hframe; [|done]. intros Heq.
    destruct (copies (filter st) (searchTerm st)).
    + subst r. by pose proof (eq_trans (eq_sym Hx) Hr).
    + subst r. by apply Halias.
  - unfold alertConfirm in Hstep. destruct (alert st) as [p|]; [|by injection Hstep as <-].
    destruct (onHeap _ st) as [[updated st1]|] eqn:Hheap; [|done].
    apply onHeap_Some in Hheap as (h & Hh & ->).
    apply (read_then_new_Some (List.filter _)) in Hh as (all & _ & Hfresh & ->).
    injection Hstep as <-. simpl. by apply insert_fresh_keeps.
  - unfold saveEdit in Hstep.
    destruct (onHeap _ st) as [[updated st1]|] eqn:Hheap; [|done].
    apply onHeap_Some in Hheap as (h & Hh & ->).
    apply (read_then_new_Some (List.map _)) in Hh as (all & _ & Hfresh & ->).
    injection Hstep as <-. simpl. by apply insert_fresh_keeps.
Qed.

Lemma overlay_frame_witness :
  paginates Effect = false ∧
  ∃ st', step Effect waiting = Some st' ∧
         page st' = page waiting ∧ inFlight st' = inFlight waiting ∧
         heap st' !! allCharacters st' = Some [rick; morty].
Proof.
  split; [reflexivity|]. eexists. split; [vm_compute; reflexivity|].
  destruct (overlay_frame Effect waiting _ eq_refl eq_refl)
    as (H1 & _ & _ & H2 & _ & _ & _ & H3).
  split; [exact H1|]. split; [exact H2|].
  apply H3; [reflexivity|]. intros _ _. discriminate.
Defined.



(** ** Pagination: pages are asked for in order *)

Lemma inPageOrder_snoc previous l q :
  inPageOrder previous l →
  q = default previous (last l) ∨ q = default previous (last l) + 1 →
  inPageOrder previous (l ++ [q]).
Proof.
  revert previous. induction l as [|p l IH]; intros previous; simpl.
  - intros _ Hq. by split.
  - intros [Hp Hl] Hq. split; [done|]. apply IH; [done|].
    rewrite last_cons in Hq. by destruct (last l).
Qed.

Lemma requestsInOrder_snoc l q :
  requestsInOrder l →
  match last l with None => q = 1 | Some p => q = p ∨ q = p + 1 end →
  requestsInOrder (l ++ [q]).
Proof.
  destruct l as [|p l]; simpl.
  - intros _ ->. by split.
  - intros [-> Hl] Hq. split; [done|]. apply inPageOrder_snoc; [done|].
    change (match last (1 :: l) with None => q = 1 | Some p => q = p ∨ q = p + 1 end) in Hq.
    rewrite last_cons in Hq. by destruct (last l).
Qed.

Lemma initialState_paginationInv characters allCharacters searchTerm filter sortOrder :
  paginationInv (initialState characters allCharacters searchTerm filter sortOrder).
Proof.
  unfold paginationInv. simpl. split; [|done].
  split; [done | by intros [? ?]].
Qed.

Lemma step_paginationInv e st st' :
  paginationInv st → step e st = Some st' → paginationInv st'.
Proof.
  intros (Hflag & Hreq & Hlast & Horder) Hstep.
  destruct (paginates e) eqn:He.
  2:{ destruct (step_keeps_pagination e st st' He Hstep) as (Hp & _ & Hl & Hi & _ & Hn & _).
      unfold paginationInv. by rewrite Hp, Hl, Hi, Hn. }
  destruct e; try done; simpl in Hstep.
  - injection Hstep as <-. rewrite !loadMoreCharacters_unfold.
    destruct (loadingMore st || negb (hasMore st)); [done|].
    unfold paginationInv. simpl. rewrite last_snoc.
    split; [by split; [eexists|]|]. split; [by intros req [= <-]|].
    split; [by left|]. by apply requestsInOrder_snoc.
  - rewrite loadMoreCharacters_resume_unfold in Hstep.
    destruct (inFlight st) as [req|] eqn:Hin.
    2:{ injection Hstep as <-. unfold paginationInv. by rewrite Hin. }
    destruct (Hreq req eq_refl) as [_ Hsent]. rewrite Hsent in Hlast.
    assert (∀ st1, page st1 = page st ∨ page st1 = page st + 1 →
                   network st1 = network st →
                   paginationInv (setInFlight None (setLoadingMore false st1))) as Hdone.
    { intros st1 Hp Hn. unfold paginationInv. simpl. rewrite Hn, Hsent.
      split; [by split; [|intros [? ?]]|]. done. }
    destruct r as [error|[results|]].
    + injection Hstep as <-. apply Hdone; [by left | done].
    + unfold loadMoreCharacters_try in Hstep.
      destruct (0 <? Z.of_nat (length results)).
      * destruct (onHeap _ st) as [[unique st1]|] eqn:Hheap; [|done].
        apply onHeap_Some in Hheap as (h & _ & ->).
        injection Hstep as <-. apply Hdone; [by right | done].
      * injection Hstep as <-. apply Hdone; [by left | done].
    + injection Hstep as <-. apply Hdone; [by left | done].
Qed.

Lemma fire_inTurn t st :
  match t with
  | CallFrom seen => seen = closureOf st
  | Answer req _ => inFlight st = Some req
  | Other _ => True
  end →
  ∃ e, fire t st = step e st.
Proof.
  destruct t as [seen|req r|e]; simpl.
  - intros ->. by exists EndReached.
  - intros Hreq. exists (Fetched r). simpl. unfold loadMoreCharacters_resume.
    by rewrite Hreq.
  - intros _. by exists e.
Qed.

(** For a component that renders between any two events (every call comes
    from the handler of the latest render, every response answers the call made
    last, which still waits), in every state it reaches: the loading flag is up
    exactly while a call waits for its response; the call that waits asked for
    the page of the cursor, with the last request sent; the cursor is the page
    asked for last or the one after it (page 1 before any request); and the
    requests sent start at page 1 and go on without skipping a page, each for
    the page of the one before or the next. *)
Theorem pagination_invariant characters allCharacters searchTerm filter sortOrder ts st :
  inTurn ts (initialState characters allCharacters searchTerm filter sortOrder) →
  fireAll ts (initialState characters allCharacters searchTerm filter sortOrder) = Some st →
  paginationInv st.
Proof.
  pose proof (initialState_paginationInv characters allCharacters searchTerm filter sortOrder)
    as Hinit.
  revert Hinit. generalize (initialState characters allCharacters searchTerm filter sortOrder).
  induction ts as [|t ts IH]; simpl; intros st0 Hinv Hturn Hrun.
  - by injection Hrun as <-.
  - destruct Hturn as [Ht Hturn].
    destruct (fire t st0) as [st1|] eqn:Hfire; [|done].
    destruct (fire_inTurn t st0 Ht) as [e He]. rewrite Hfire in He.
    eapply IH; [|exact Hturn|exact Hrun]. by eapply step_paginationInv.
Qed.

Lemma pagination_invariant_witness :
  ∃ st,
    inTurn [CallFrom (mkClosure false true 1 1%nat);
            Answer (mkRequest 1 1%nat) (Body (Some [summer]));
            CallFrom (mkClosure false true 2 3%nat);
            Answer (mkRequest 2 3%nat) (Rejected "offline");
            CallFrom (mkClosure false true 2 3%nat)]
           (initialState [rick] [rick] "" "All" asc) ∧
    fireAll [CallFrom (mkClosure false true 1 1%nat);
             Answer (mkRequest 1 1%nat) (Body (Some [summer]));
             CallFrom (mkClosure false true 2 3%nat);
             Answer (mkRequest 2 3%nat) (Rejected "offline");
             CallFrom (mkClosure false true 2 3%nat)]
            (initialState [rick] [rick] "" "All" asc) = Some st ∧
    network st = [1; 2; 2] ∧
    paginationInv st.
Proof.
  assert (inTurn [CallFrom (mkClosure false true 1 1%nat);
                  Answer (mkRequest 1 1%nat) (Body (Some [summer]));
                  CallFrom (mkClosure false true 2 3%nat);
                  Answer (mkRequest 2 3%nat) (Rejected "offline");
                  CallFrom (mkClosure false true 2 3%nat)]
                 (initialState [rick] [rick] "" "All" asc)) as Hturn.
  { vm_compute. repeat split. }
  eexists. split; [exact Hturn|]. split; [vm_compute; reflexivity|].
  split; [reflexivity|].
  eapply (pagination_invariant [rick] [rick] "" "All" asc); [exact Hturn|].
  vm_compute. reflexivity.
Defined.

(** ** Editing and deleting: identifiers, absent identifiers, copies *)

Lemma map_replace_ids (u : Character) l :
  List.map id (List.map (λ char, if id char =? id u then u else char) l) = List.map id l.
Proof.
  rewrite List.map_map. apply map_ext. intros c.
  destruct (Z.eqb_spec (id c) (id u)); [done | done].
Qed.

(** [saveEdit] never adds or removes an identifier: the collection it
    publishes has the identifiers of the old one, position by position. When no
    record has the identifier of the updated record nothing is inserted, and
    saving a record of a collection with pairwise distinct identifiers as it is
    changes nothing. The collection is published in a new array; the array the
    parent held keeps its elements. *)
Theorem saveEdit_keeps_identifiers updatedCharacter st collection :
  heap st !! characters st = Some collection →
  ∃ st' updated,
    saveEdit updatedCharacter st = Some st' ∧
    heap st' !! characters st' = Some updated ∧
    List.map id updated = List.map id collection ∧
    (id updatedCharacter ∉ List.map id collection → updated = collection) ∧
    (updatedCharacter ∈ collection → NoDup (List.map id collection) → updated = collection) ∧
    characters st' ≠ characters st ∧
    heap st' !! characters st = Some collection.
Proof.
  intros Hc.
  destruct (saveEdit_run updatedCharacter st collection Hc) as (r & Hr & ->).
  eexists _, _. split; [done|]. simpl. split; [by rewrite lookup_insert_eq|].
  split; [apply map_replace_ids|].
  assert (r ≠ characters st) as Hne.
  { intros Heq. subst r. by pose proof (eq_trans (eq_sym Hc) Hr). }
  repeat split; [| |done|by rewrite lookup_insert_ne].
  - intros Hid. etrans; [|apply List.map_id]. apply map_ext_in. intros c Hin.
    destruct (Z.eqb_spec (id c) (id updatedCharacter)) as [Heq|]; [|done].
    destruct Hid. rewrite <- Heq. by apply (list_elem_of_fmap_2 id), list_elem_of_In.
  - intros Hu Hnodup. etrans; [|apply List.map_id]. apply map_ext_in. intros c Hin.
    destruct (Z.eqb_spec (id c) (id updatedCharacter)) as [Heq|]; [|done].
    symmetry. apply (NoDup_map_eq id collection); [done | by apply list_elem_of_In | done..].
Qed.

Lemma saveEdit_keeps_identifiers_witness :
  heap editingRick !! characters editingRick = Some [rick; morty; beth] ∧
  ∃ st' updated,
    saveEdit summer editingRick = Some st' ∧
    heap st' !! characters st' = Some updated ∧
    List.map id updated = List.map id [rick; morty; beth] ∧
    (id summer ∉ List.map id [rick; morty; beth] → updated = [rick; morty; beth]) ∧
    (summer ∈ [rick; morty; beth] → NoDup (List.map id [rick; morty; beth]) →
       updated = [rick; morty; beth]) ∧
    characters st' ≠ characters editingRick ∧
    heap st' !! characters editingRick = Some [rick; morty; beth].
Proof.
  split; [reflexivity|].
  apply (saveEdit_keeps_identifiers summer editingRick [rick; morty; beth]). reflexivity.
Defined.

(** Saving the same record twice leaves the collection that saving it once
    leaves. *)
Theorem saveEdit_twice updatedCharacter st collection :
  heap st !! characters st = Some collection →
  ∃ st1 st2 updated,
    saveEdit updatedCharacter st = Some st1 ∧
    heap st1 !! characters st1 = Some updated ∧
    run [SaveEdit updatedCharacter; SaveEdit updatedCharacter] st = Some st2 ∧
    heap st2 !! characters st2 = Some updated.
Proof.
  intros Hc.
  destruct (saveEdit_run updatedCharacter st collection Hc) as (r & Hr & Hsave).
  assert (heap (setIsEditModalVisible false (setCharacters r
            (setHeap (<[r := List.map (λ char, if id char =? id updatedCharacter
                                               then updatedCharacter else char) collection]>
                        (heap st)) st)))
          !! characters (setIsEditModalVisible false (setCharacters r
            (setHeap (<[r := List.map (λ char, if id char =? id updatedCharacter
                                               then updatedCharacter else char) collection]>
                        (heap st)) st)))
          = Some (List.map (λ char, if id char =? id updatedCharacter
                                    then updatedCharacter else char) collection)) as Hc1.
  { simpl. by rewrite lookup_insert_eq. }
  destruct (saveEdit_run updatedCharacter _ _ Hc1) as (r2 & Hr2 & Hsave2).
  eexists _, _, _. split; [exact Hsave|]. split; [exact Hc1|].
  simpl. rewrite Hsave, Hsave2. split; [done|]. simpl. rewrite lookup_insert_eq.
  f_equal. rewrite List.map_map. apply map_ext. intros c.
  destruct (Z.eqb_spec (id c) (id updatedCharacter)); [by rewrite Z.eqb_refl | ].
  by destruct (Z.eqb_spec (id c) (id updatedCharacter)).
Qed.

Lemma saveEdit_twice_witness :
  heap editingRick !! characters editingRick = Some [rick; morty; beth] ∧
  ∃ st1 st2 updated,
    saveEdit (mkCharacter 1 "Rick S." "Dead" "") editingRick = Some st1 ∧
    heap st1 !! characters st1 = Some updated ∧
    run [SaveEdit (mkCharacter 1 "Rick S." "Dead" ""); SaveEdit (mkCharacter 1 "Rick S." "Dead" "")]
        editingRick = Some st2 ∧
    heap st2 !! characters st2 = Some updated.
Proof.
  split; [reflexivity|].
  apply (saveEdit_twice (mkCharacter 1 "Rick S." "Dead" "") editingRick [rick; morty; beth]).
  reflexivity.
Defined.

(** Confirming a deletion removes as many records as have the identifier, and
    none when no record has it; the collection is published in a new array, the
    array the parent held keeps its elements, and the dialog is gone. *)
Theorem alertConfirm_counts i st collection :
  heap st !! characters st = Some collection →
  ∃ st' remaining,
    alertConfirm (handleDelete i st) = Some st' ∧
    heap st' !! characters st' = Some remaining ∧
    (length remaining + length (List.filter (λ c, (id c =? i)%Z) collection)
     = length collection)%nat ∧
    (i ∉ List.map id collection → remaining = collection) ∧
    characters st' ≠ characters st ∧
    heap st' !! characters st = Some collection ∧
    alert st' = None.
Proof.
  intros Hc. unfold alertConfirm, onHeap. simpl.
  destruct (Array_filter_run (characters st) (λ character, negb (id character =? i))
              (heap st) collection Hc) as (r & -> & Hr).
  eexists _, _. split; [done|]. simpl. split; [by rewrite lookup_insert_eq|].
  assert (r ≠ characters st) as Hne.
  { intros Heq. subst r. by pose proof (eq_trans (eq_sym Hc) Hr). }
  repeat split; [| |done|by rewrite lookup_insert_ne].
  - rewrite Nat.add_comm. apply List.filter_length.
  - intros Hid. apply filter_all. intros c Hin. apply negb_true_iff, Z.eqb_neq.
    intros Heq. apply Hid. rewrite <- Heq. by apply (list_elem_of_fmap_2 id).
Qed.

Lemma alertConfirm_counts_witness :
  heap detailOnRick !! characters detailOnRick = Some [rick; morty; beth] ∧
  ∃ st' remaining,
    alertConfirm (handleDelete 9 detailOnRick) = Some st' ∧
    heap st' !! characters st' = Some remaining ∧
    (length remaining + length (List.filter (λ c, (id c =? 9)%Z) [rick; morty; beth])
     = length [rick; morty; beth])%nat ∧
    (9 ∉ List.map id [rick; morty; beth] → remaining = [rick; morty; beth]) ∧
    characters st' ≠ characters detailOnRick ∧
    heap st' !! characters detailOnRick = Some [rick; morty; beth] ∧
    alert st' = None.
Proof.
  split; [reflexivity|].
  apply (alertConfirm_counts 9 detailOnRick [rick; morty; beth]). reflexivity.
Defined.

(** ** What the component shows *)

Lemma keyExtractor_inj a b : keyExtractor a = keyExtractor b → id a = id b.
Proof.
  unfold keyExtractor. intros H. apply DecimalZ.to_int_inj.
  assert (∀ z, NilZero.int_of_string (NilZero.string_of_int (Z.to_int z)) = Some (Z.to_int z))
    as Hback.
  { intros z. apply NilZero.isi; destruct z; simpl; try done;
      intros [= Hnil]; by apply DecimalPos.Unsigned.to_uint_nonnil in Hnil. }
  pose proof (Hback (id a)) as Ha. rewrite H, Hback in Ha. by injection Ha.
Qed.

Lemma keys_distinct l :
  NoDup (List.map id l) → NoDup (List.map card_key (List.map renderItem l)).
Proof.
  rewrite List.map_map. simpl.
  induction l as [|x l IH]; simpl; [constructor|].
  intros [Hx Hl]%NoDup_cons. apply NoDup_cons. split; [|by apply IH].
  intros (y & Hy & Hin)%list_elem_of_fmap. apply Hx.
  apply keyExtractor_inj in Hy. rewrite Hy. by apply (list_elem_of_fmap_2 id).
Qed.

Lemma card_texts l : List.map card_text (List.map renderItem l) = List.map name l.
Proof. induction l as [|x l IH]; simpl; [done|]. by rewrite IH. Qed.

(** After a page with records the component shows the list, one card for each
    record of the merge in its order, and no two cards have the same key. *)
Theorem page_shows_distinct_keys st req all results :
  inFlight st = Some req →
  heap st !! req_allCharacters req = Some all →
  results ≠ [] →
  ∃ st' screen cards,
    loadMoreCharacters_resume (Body (Some results)) st = Some st' ∧
    render false st' = Some (Shown screen) ∧
    listArea screen = FlatList cards ∧
    List.map card_text cards = List.map name (uniqueCharacters all results) ∧
    NoDup (List.map card_key cards) ∧
    loadingMoreText screen = None.
Proof.
  intros Hreq Hall Hne.
  destruct (resume_page st req all results Hreq Hall Hne) as (r & Hr & Hres).
  pose proof (uniqueCharacters_NoDup all results) as Hnodup.
  destruct (uniqueCharacters all results) as [|c merged] eqn:Hm.
  { destruct results as [|x results]; [done|].
    assert (id x ∈ List.map id (uniqueCharacters all (x :: results))) as Hin.
    { apply uniqueCharacters_id_elem. rewrite map_app, elem_of_app. right. by left. }
    rewrite Hm in Hin. by apply elem_of_nil in Hin. }
  eexists _, _, _. split; [exact Hres|].
  unfold render. simpl. rewrite lookup_insert_eq. simpl.
  split; [reflexivity|]. split; [reflexivity|].
  split; [apply (card_texts (c :: merged))|]. split; [|done].
  by apply (keys_distinct (c :: merged)).
Qed.

Lemma page_shows_distinct_keys_witness :
  inFlight waiting = Some (mkRequest 1 1%nat) ∧
  heap waiting !! req_allCharacters (mkRequest 1 1%nat) = Some [rick; morty] ∧
  [morty; summer] ≠ [] ∧
  ∃ st' screen cards,
    loadMoreCharacters_resume (Body (Some [morty; summer])) waiting = Some st' ∧
    render false st' = Some (Shown screen) ∧
    listArea screen = FlatList cards ∧
    List.map card_text cards = List.map name (uniqueCharacters [rick; morty] [morty; summer]) ∧
    NoDup (List.map card_key cards) ∧
    loadingMoreText screen = None.
Proof.
  split; [reflexivity|]. split; [reflexivity|]. split; [discriminate|].
  apply (page_shows_distinct_keys waiting (mkRequest 1 1%nat) [rick; morty] [morty; summer]);
    [reflexivity | reflexivity | discriminate].
Defined.

Lemma filter_nil_iff {A} (p : A → bool) l :
  List.filter p l = [] ↔ ∀ x, x ∈ l → p x = false.
Proof.
  split; [|apply filter_none].
  intros H x Hx. destruct (p x) eqn:Hp; [|done].
  assert (In x (List.filter p l)) as Hin by (apply filter_In; split; [by apply list_elem_of_In|done]).
  by rewrite H in Hin.
Qed.

(** When the effect hands the view state an array other than the one it holds
    (a filter or a search term is set, or the view state is not the array of
    the props), so that the component renders again: it shows the message for
    an empty view exactly when the filter and the search term keep no record of
    the collection; otherwise it shows the list, one card for each record of
    the view in its order, and when the identifiers of the collection are
    pairwise distinct no two cards have the same key. *)
Theorem effect_shows_view st collection shown :
  heap st !! characters st = Some collection →
  heap st !! filteredCharacters st = Some shown →
  copies (filter st) (searchTerm st) = true ∨ filteredCharacters st ≠ characters st →
  ∃ st' screen,
    filterEffect st = Some st' ∧
    filteredCharacters st' ≠ filteredCharacters st ∧
    render false st' = Some (Shown screen) ∧
    (listArea screen = NoResults "Nenhum personagem encontrado."
     ↔ ∀ c, c ∈ collection → ¬ Spec.kept (filter st) (searchTerm st) c) ∧
    (∀ cards, listArea screen = FlatList cards →
       List.map card_text cards
       = List.map name (viewOf collection (filter st) (searchTerm st) (sortOrder st)) ∧
       (NoDup (List.map id collection) → NoDup (List.map card_key cards))).
Proof.
  intros Hc Hshown Hnew. unfold filterEffect, onHeap.
  destruct (pipeline_run (heap st) (characters st) collection (filter st) (searchTerm st)
              (sortOrder st) Hc) as (r & h' & -> & Hview & _ & Hr).
  eexists _, _. split; [done|]. simpl. split.
  { intros Heq. destruct (copies (filter st) (searchTerm st)).
    - subst r. by pose proof (eq_trans (eq_sym Hshown) Hr).
    - subst r. by destruct Hnew as [?|Hne]; [|apply Hne]. }
  unfold render. simpl. rewrite Hview.
  split; [reflexivity|]. simpl.
  assert (viewOf collection (filter st) (searchTerm st) (sortOrder st)
          ≡ₚ List.filter (keptb (filter st) (searchTerm st)) collection) as Hperm.
  { unfold viewOf. by rewrite sorted_copy_perm, steps_filter. }
  destruct (viewOf collection (filter st) (searchTerm st) (sortOrder st))
    as [|c view] eqn:Hv; simpl.
  - split; [|done]. split; [|done]. intros _ c Hin Hkept.
    apply Permutation_nil in Hperm.
    rewrite filter_nil_iff in Hperm. apply keptb_spec in Hkept.
    rewrite (Hperm c Hin) in Hkept. done.
  - split.
    + split; [done|]. intros Hnone. exfalso.
      assert (c ∈ List.filter (keptb (filter st) (searchTerm st)) collection) as Hin
        by (rewrite <- Hperm; by left).
      apply list_elem_of_In, filter_In in Hin as [Hin Hk].
      apply (Hnone c); [by apply list_elem_of_In | by apply keptb_spec].
    + intros cards [= <-]. split; [apply (card_texts (c :: view))|].
      intros Hids. apply (keys_distinct (c :: view)).
      rewrite Hperm. by apply filter_distinct.
Qed.

Lemma effect_shows_view_witness :
  heap firstRender !! characters firstRender = Some [rick; morty; beth] ∧
  heap firstRender !! filteredCharacters firstRender = Some [] ∧
  (copies (filter firstRender) (searchTerm firstRender) = true
   ∨ filteredCharacters firstRender ≠ characters firstRender) ∧
  ∃ st' screen,
    filterEffect firstRender = Some st' ∧
    filteredCharacters st' ≠ filteredCharacters firstRender ∧
    render false st' = Some (Shown screen) ∧
    (listArea screen = NoResults "Nenhum personagem encontrado."
     ↔ ∀ c, c ∈ [rick; morty; beth] →
            ¬ Spec.kept (filter firstRender) (searchTerm firstRender) c).
Proof.
  assert (copies (filter firstRender) (searchTerm firstRender) = true
          ∨ filteredCharacters firstRender ≠ characters firstRender) as Hnew
    by (right; discriminate).
  split; [reflexivity|]. split; [reflexivity|]. split; [exact Hnew|].
  destruct (effect_shows_view firstRender [rick; morty; beth] [] eq_refl eq_refl Hnew)
    as (st' & screen & H1 & H2 & H3 & H4 & _).
  by exists st', screen.
Defined.

(** ** The detail overlay *)

Lemma step_detail_has_record e st st' :
  (isModalVisible st = true → is_Some (selectedCharacter st)) →
  step e st = Some st' →
  isModalVisible st' = true → is_Some (selectedCharacter st').
Proof.
  intros Hinv Hstep.
  destruct (paginates e) eqn:He.
  { destruct (step_keeps_overlays e st st' He Hstep) as (_ & _ & _ & _ & -> & -> & _). done. }
  destruct e; try done; simpl in Hstep; try (injection Hstep as <-; simpl; by eauto).
  - unfold filterEffect in Hstep.
    destruct (onHeap _ st) as [[view st1]|] eqn:Hheap; [|done].
    apply onHeap_Some in Hheap as (h & _ & ->). by injection Hstep as <-.
  - unfold alertConfirm in Hstep. destruct (alert st) as [p|]; [|by injection Hstep as <-].
    destruct (onHeap _ st) as [[updated st1]|] eqn:Hheap; [|done].
    apply onHeap_Some in Hheap as (h & _ & ->). by injection Hstep as <-.
  - unfold saveEdit in Hstep.
    destruct (onHeap _ st) as [[updated st1]|] eqn:Hheap; [|done].
    apply onHeap_Some in Hheap as (h & _ & ->). by injection Hstep as <-.
Qed.

(** In every state the component reaches, a visible detail overlay has a
    record to show: the flag of the overlay is up only with a selection. *)
Theorem detail_overlay_has_record characters allCharacters searchTerm filter sortOrder es st :
  run es (initialState characters allCharacters searchTerm filter sortOrder) = Some st →
  isModalVisible st = true →
  is_Some (selectedCharacter st).
Proof.
  assert (isModalVisible (initialState characters allCharacters searchTerm filter sortOrder)
          = true →
          is_Some (selectedCharacter
                     (initialState characters allCharacters searchTerm filter sortOrder)))
    as Hinit by done.
  revert Hinit. generalize (initialState characters allCharacters searchTerm filter sortOrder).
  induction es as [|e es IH]; simpl; intros st0 Hinv Hrun.
  - by injection Hrun as <-.
  - destruct (step e st0) as [st1|] eqn:Hstep; [|done].
    eapply IH; [|exact Hrun]. by eapply step_detail_has_record.
Qed.

Lemma detail_overlay_has_record_witness :
  ∃ st,
    run [OpenModal rick; Edit rick; SaveEdit morty; OpenModal beth]
        (initialState [rick; beth] [rick] "" "All" asc) = Some st ∧
    isModalVisible st = true ∧
    is_Some (selectedCharacter st).
Proof.
  eexists. split; [vm_compute; reflexivity|]. split; [reflexivity|].
  eapply (detail_overlay_has_record [rick; beth] [rick] "" "All" asc
            [OpenModal rick; Edit rick; SaveEdit morty; OpenModal beth]);
    [vm_compute; reflexivity | reflexivity].
Defined.

(** ** Pagination and the effect together *)

(** When the effect runs after a page, the view is again the view of the
    collection of the props alone, whatever the page held; the hook's
    collection still holds the merge. *)
Theorem effect_after_page st req all results collection :
  inFlight st = Some req →
  heap st !! req_allCharacters req = Some all →
  results ≠ [] →
  heap st !! characters st = Some collection →
  ∃ st',
    run [Fetched (Body (Some results)); Effect] st = Some st' ∧
    heap st' !! filteredCharacters st'
    = Some (viewOf collection (filter st) (searchTerm st) (sortOrder st)) ∧
    heap st' !! allCharacters st' = Some (uniqueCharacters all results).
Proof.
  intros Hreq Hall Hne Hc.
  destruct (resume_page st req all results Hreq Hall Hne) as (r & Hr & Hres).
  unfold run, step. rewrite Hres. unfold filterEffect, onHeap. simpl.
  assert (r ≠ characters st) as Hrc.
  { intros Heq. subst r. by pose proof (eq_trans (eq_sym Hc) Hr). }
  assert (<[r := uniqueCharacters all results]> (heap st) !! characters st = Some collection)
    as Hc1 by (by rewrite lookup_insert_ne).
  destruct (pipeline_run _ (characters st) collection (filter st) (searchTerm st)
              (sortOrder st) Hc1) as (r2 & h2 & -> & Hview & Hframe & Hr2).
  eexists. split; [done|]. simpl. split; [done|].
  apply Hframe; [|by rewrite lookup_insert_eq].
  destruct (copies (filter st) (searchTerm st)).
  - intros Heq. subst r2. by rewrite lookup_insert_eq in Hr2.
  - by subst r2.
Qed.

Lemma effect_after_page_witness :
  inFlight waiting = Some (mkRequest 1 1%nat) ∧
  heap waiting !! req_allCharacters (mkRequest 1 1%nat) = Some [rick; morty] ∧
  [summer] ≠ [] ∧
  heap waiting !! characters waiting = Some [rick; morty; beth] ∧
  ∃ st',
    run [Fetched (Body (Some [summer])); Effect] waiting = Some st' ∧
    heap st' !! filteredCharacters st'
    = Some (viewOf [rick; morty; beth] (filter waiting) (searchTerm waiting)
              (sortOrder waiting)) ∧
    heap st' !! allCharacters st' = Some (uniqueCharacters [rick; morty] [summer]).
Proof.
  split; [reflexivity|]. split; [reflexivity|]. split; [discriminate|].
  split; [reflexivity|].
  apply (effect_after_page waiting (mkRequest 1 1%nat) [rick; morty] [summer]
           [rick; morty; beth]); [reflexivity | reflexivity | discriminate | reflexivity].
Defined.



(** ** The letter case of the search term *)

Lemma truthy_lower s : JsString.truthy (JsString.toLowerCase s) = JsString.truthy s.
Proof. by destruct s. Qed.

(** Two search terms that differ in letter case only give the same view. *)
Theorem search_term_case (h : gmap nat (list Character)) characters collection
    filter searchTerm searchTerm' sortOrder :
  h !! characters = Some collection →
  JsString.toLowerCase searchTerm = JsString.toLowerCase searchTerm' →
  ∃ r h1 r' h2 view,
    getFilteredAndSortedCharacters characters filter searchTerm sortOrder h = Some (r, h1) ∧
    h1 !! r = Some view ∧
    getFilteredAndSortedCharacters characters filter searchTerm' sortOrder h = Some (r', h2) ∧
    h2 !! r' = Some view.
Proof.
  intros Hc Hcase.
  destruct (pipeline_run h characters collection filter searchTerm sortOrder Hc)
    as (r & h1 & Hrun & Hview & _).
  destruct (pipeline_run h characters collection filter searchTerm' sortOrder Hc)
    as (r' & h2 & Hrun' & Hview' & _).
  eexists r, h1, r', h2, _. repeat (split; [done|]).
  rewrite Hview'. f_equal. unfold viewOf, searchStep. f_equal.
  rewrite <- (truthy_lower searchTerm), <- (truthy_lower searchTerm'), Hcase.
  destruct (JsString.truthy _); [|done].
  apply filter_ext. intros c. unfold nameMatches. by rewrite Hcase.
Qed.

Lemma search_term_case_witness :
  sampleHeap !! 0%nat = Some [rick; morty; beth] ∧
  JsString.toLowerCase "SMITH" = JsString.toLowerCase "Smith" ∧
  ∃ r h1 r' h2 view,
    getFilteredAndSortedCharacters 0%nat "All" "SMITH" asc sampleHeap = Some (r, h1) ∧
    h1 !! r = Some view ∧
    getFilteredAndSortedCharacters 0%nat "All" "Smith" asc sampleHeap = Some (r', h2) ∧
    h2 !! r' = Some view.
Proof.
  split; [reflexivity|]. split; [reflexivity|].
  apply (search_term_case sampleHeap 0%nat [rick; morty; beth] "All" "SMITH" "Smith" asc);
    reflexivity.
Defined.
